(** * unifi-ddns: the dynamic-DNS worker of [src/index.ts]

    A shallow embedding of the worker and the properties of its four
    parts: the credential decoder ([constructClientOptions]), the request
    parser ([constructDNSRecords]), the reconciler ([update]) and the
    handler ([fetch]).

    Strings are byte strings ([string] of the Standard Library, one
    [ascii] per code unit): this is what [Headers.get] and [atob] hand to
    the worker, and what [btoa] accepts.  Exceptions are explicit: a
    computation returns a value or throws, either an [HttpError] of the
    worker or some other error (a [DOMException] of [atob], a rejected
    call of the Cloudflare client).  The Cloudflare client is a parameter:
    a state machine over an arbitrary world, each call giving a reply and
    the next world, with every call and its reply logged. *)

From Stdlib Require Import String Ascii List Bool Arith NArith ZArith Lia.
Import ListNotations.

Local Open Scope string_scope.
Local Open Scope list_scope.

(** ** The builtins of the platform the worker calls *)

Module JS.

(** [s.indexOf(c)]: the first position of [c], [None] for JavaScript's -1. *)
Fixpoint indexOf (c : ascii) (s : string) : option nat :=
  match s with
  | EmptyString => None
  | String a r =>
      if Ascii.eqb a c then Some 0
      else match indexOf c r with
           | Some i => Some (S i)
           | None => None
           end
  end.

(** [s.includes(c)]. *)
Definition includes (c : ascii) (s : string) : bool :=
  match indexOf c s with
  | Some _ => true
  | None => false
  end.

(** [s.substring(start, end)] and [s.substring(start)]. *)
Definition substring (start stop : nat) (s : string) : string :=
  String.substring start (stop - start) s.

Definition substring_from (start : nat) (s : string) : string :=
  String.substring start (String.length s - start) s.

(** [s.split(sep)] for a separator of one character: the pieces between
    the separators, in order; the empty string gives one empty piece. *)
Fixpoint split (sep : ascii) (s : string) : list string :=
  match s with
  | EmptyString => [EmptyString]
  | String a r =>
      if Ascii.eqb a sep then EmptyString :: split sep r
      else match split sep r with
           | piece :: pieces => String a piece :: pieces
           | [] => [String a EmptyString]
           end
  end.

(** [pieces.join(sep)]. *)
Fixpoint join (sep : string) (pieces : list string) : string :=
  match pieces with
  | [] => EmptyString
  | [piece] => piece
  | piece :: rest => piece ++ sep ++ join sep rest
  end.

(** [String(x)] for a value that may be [undefined]. *)
Definition to_string (x : option string) : string :=
  match x with
  | Some s => s
  | None => "undefined"
  end.

(** The character class of the regular expression [/[\0-\x1F\x7F]/]. *)
Definition is_control (c : ascii) : bool :=
  let n := N_of_ascii c in
  ((n <=? 31) || (n =? 127))%N.

(** [/[\0-\x1F\x7F]/.test(s)]. *)
Fixpoint test_control (s : string) : bool :=
  match s with
  | EmptyString => false
  | String a r => is_control a || test_control r
  end.

(** [!s] for a string: the empty string is falsy. *)
Definition falsy (s : string) : bool :=
  match s with
  | EmptyString => true
  | String _ _ => false
  end.

(** [a || b] on values that are a string or [null]: [b] when [a] is
    [null] or the empty string. *)
Definition or_else (a b : option string) : option string :=
  match a with
  | Some s => if falsy s then b else Some s
  | None => b
  end.

(** ASCII lower case, as [Headers] normalises the names of headers. *)
Definition lower (c : ascii) : ascii :=
  let n := N_of_ascii c in
  if ((65 <=? n) && (n <=? 90))%N then ascii_of_N (n + 32) else c.

Fixpoint toLowerCase (s : string) : string :=
  match s with
  | EmptyString => EmptyString
  | String a r => String (lower a) (toLowerCase r)
  end.

End JS.

(** ** Base64, as [btoa] and [atob] define it

    [btoa] is the encoding of RFC 4648 with padding; [atob] is the
    forgiving decoder of the WHATWG Infra standard: it drops ASCII
    white space, drops one or two trailing [=] when the length is a
    multiple of four, refuses a length that is 1 modulo 4 and every
    character outside the alphabet, and reads the rest six bits a
    character, dropping the four or two bits left over at the end. *)

Module Base64.

Definition alphabet : string :=
  "ABCDEFGHIJKLMNOPQRSTUVWXYZabcdefghijklmnopqrstuvwxyz0123456789+/".

(** The character of a six-bit value. *)
Definition char_of (v : N) : ascii :=
  match String.get (N.to_nat v) alphabet with
  | Some c => c
  | None => "="%char
  end.

(** The six-bit value of a character of the alphabet. *)
Definition value_of (c : ascii) : option N :=
  let n := N_of_ascii c in
  if ((65 <=? n) && (n <=? 90))%N then Some (n - 65)%N
  else if ((97 <=? n) && (n <=? 122))%N then Some (n - 71)%N
  else if ((48 <=? n) && (n <=? 57))%N then Some (n + 4)%N
  else if (n =? 43)%N then Some 62%N
  else if (n =? 47)%N then Some 63%N
  else None.

(** Bytes to six-bit values: three bytes give four values, a last group
    of two bytes gives three, a last single byte gives two (the bits
    missing at the end are zero). *)
Fixpoint sextets (bytes : list N) : list N :=
  match bytes with
  | a :: b :: c :: rest =>
      (a / 4 :: (a mod 4) * 16 + b / 16 :: (b mod 16) * 4 + c / 64 :: c mod 64
         :: sextets rest)%N
  | [a; b] => [a / 4; (a mod 4) * 16 + b / 16; (b mod 16) * 4]%N
  | [a] => [a / 4; (a mod 4) * 16]%N
  | [] => []
  end.

Definition padding (n : nat) : list ascii :=
  match n mod 3 with
  | 1 => ["="%char; "="%char]
  | 2 => ["="%char]
  | _ => []
  end.

Definition bytes_of (s : string) : list N :=
  map N_of_ascii (list_ascii_of_string s).

Definition string_of (bytes : list N) : string :=
  string_of_list_ascii (map ascii_of_N bytes).

Definition btoa (s : string) : string :=
  let bytes := bytes_of s in
  string_of_list_ascii (map char_of (sextets bytes) ++ padding (length bytes)).

(** Six-bit values to bytes: four values give three bytes; at the end
    three values (18 bits) give two bytes and two values (12 bits) give
    one, the two or four bits left over being dropped. *)
Fixpoint octets (vs : list N) : list N :=
  match vs with
  | a :: b :: c :: d :: rest =>
      (a * 4 + b / 16 :: (b mod 16) * 16 + c / 4 :: (c mod 4) * 64 + d
         :: octets rest)%N
  | [a; b; c] => [a * 4 + b / 16; (b mod 16) * 16 + c / 4]%N
  | [a; b] => [a * 4 + b / 16]%N
  | _ => []
  end.

Definition is_whitespace (c : ascii) : bool :=
  let n := N_of_ascii c in
  ((n =? 9) || (n =? 10) || (n =? 12) || (n =? 13) || (n =? 32))%N.

Definition ends_with_equals (data : list ascii) : bool :=
  match rev data with
  | c :: _ => Ascii.eqb c "="
  | [] => false
  end.

(** One or two [=] at the end are removed. *)
Definition strip_padding (data : list ascii) : list ascii :=
  if ends_with_equals data then
    let data1 := removelast data in
    if ends_with_equals data1 then removelast data1 else data1
  else data.

Fixpoint values_of (data : list ascii) : option (list N) :=
  match data with
  | [] => Some []
  | c :: r =>
      match value_of c, values_of r with
      | Some v, Some vs => Some (v :: vs)
      | _, _ => None
      end
  end.

(** [atob(data)]; [None] is the [InvalidCharacterError] it throws. *)
Definition atob (data : string) : option string :=
  let d := filter (fun c => negb (is_whitespace c)) (list_ascii_of_string data) in
  let d := if (length d mod 4 =? 0)%nat then strip_padding d else d in
  if (length d mod 4 =? 1)%nat then None
  else match values_of d with
       | Some vs => Some (string_of (octets vs))
       | None => None
       end.

(** A six-bit value whose character reads back as the value, and is
    neither white space nor [=]. *)
Definition sound_value (v : N) : bool :=
  match value_of (char_of v) with
  | Some u => N.eqb u v
  | None => false
  end
  && negb (is_whitespace (char_of v))
  && negb (Ascii.eqb (char_of v) "=")
  && negb (Ascii.eqb (char_of v) " ").

Definition byte (n : N) : Prop := (n < 256)%N.

End Base64.

(** ** The request and the worker's data *)

(** [Headers.get(name)]: the values of the headers of that name, names
    compared without case, joined by a comma and a space; [None] for
    [null]. *)
Module Headers.

Definition t := list (string * string).

Definition values (name : string) (h : t) : list string :=
  map snd
    (filter (fun kv => String.eqb (JS.toLowerCase (fst kv)) (JS.toLowerCase name)) h).

Definition get (name : string) (h : t) : option string :=
  match values name h with
  | [] => None
  | vs => Some (JS.join ", " vs)
  end.

End Headers.

(** [URLSearchParams.get(name)]: the value of the first pair of that
    name, [None] for [null]. *)
Module URLSearchParams.

Definition t := list (string * string).

Fixpoint get (name : string) (params : t) : option string :=
  match params with
  | [] => None
  | (k, v) :: rest => if String.eqb k name then Some v else get name rest
  end.

End URLSearchParams.

(** What the worker reads of a request: its headers and the query of
    its URL ([new URL(request.url).searchParams]). *)
Record Request := {
  headers : Headers.t;
  searchParams : URLSearchParams.t
}.

Record Response := {
  body : string;
  status : nat
}.

(** What a computation throws: the worker's [HttpError], or anything
    else (for which [error instanceof HttpError] is false). *)
Inductive Thrown :=
| HttpError (statusCode : nat) (message : string)
| OtherError.

Inductive Result (A : Type) :=
| Return (a : A)
| Throw (e : Thrown).

Arguments Return {A} a.
Arguments Throw {A} e.

Record ClientOptions := {
  apiEmail : string;
  apiToken : string
}.

(** The records of [cloudflare/src/resources/dns/records.js]. *)
Module DNS.

Inductive RecordType := A | AAAA.

(** [ARecord] and [AAAARecord] are declared in the Cloudflare SDK, not
    in the worker.  The record has the fields the worker writes (lines
    54 to 59) and reads (lines 92 to 100); [id], [proxied] and [comment]
    may be [undefined], and the worker does not set them. *)
Record AddressableRecord := {
  id : option string;
  content : string;
  name : string;
  type : RecordType;
  ttl : nat;
  proxied : option bool;
  comment : option string
}.

(** The second argument of [dns.records.update], lines 102 to 109. *)
Record RecordUpdateParams := {
  u_content : string;
  u_zone_id : string;
  u_name : string;
  u_type : RecordType;
  u_proxied : bool;
  u_comment : option string
}.

Definition type_eqb (a b : RecordType) : bool :=
  match a, b with
  | A, A | AAAA, AAAA => true
  | _, _ => false
  end.

End DNS.

Module Zone.

Record t := {
  id : string;
  name : string
}.

End Zone.

Import DNS.

Definition dquote : string := String (ascii_of_nat 34) "".

Definition ip_required : string :=
  "The " ++ dquote ++ "ip" ++ dquote
    ++ " parameter is required and cannot be empty. Specify ip=auto to use the client IP.".

Definition hostname_required : string :=
  "The " ++ dquote ++ "hostname" ++ dquote
    ++ " parameter is required and cannot be empty.".

(** ** The credential decoder, lines 12 to 30 *)

Definition constructClientOptions (request : Request) : Result ClientOptions :=
  match Headers.get "Authorization" (headers request) with
  | None => Throw (HttpError 401 "API token missing.")
  | Some authorization =>
      if JS.falsy authorization then Throw (HttpError 401 "API token missing.")
      else
        let data := nth_error (JS.split " " authorization) 1 in
        match Base64.atob (JS.to_string data) with
        | None => Throw OtherError
        | Some decoded =>
            match JS.indexOf ":" decoded, JS.test_control decoded with
            | Some index, false =>
                Return {| apiEmail := JS.substring 0 index decoded;
                          apiToken := JS.substring_from (index + 1) decoded |}
            | _, _ => Throw (HttpError 401 "Invalid API key or token.")
            end
        end
  end.

(** ** The request parser, lines 32 to 65 *)

(** Lines 35 and 38 to 45: the address the request asks for. *)
Definition resolveIP (request : Request) : Result string :=
  let params := searchParams request in
  match JS.or_else (URLSearchParams.get "ip" params)
                   (URLSearchParams.get "myip" params) with
  | None => Throw (HttpError 422 ip_required)
  | Some ip =>
      if String.eqb ip "auto" then
        match Headers.get "CF-Connecting-IP" (headers request) with
        | None =>
            Throw (HttpError 500
              "Request asked for ip=auto but client IP address cannot be determined.")
        | Some client => Return client
        end
      else Return ip
  end.

(** Lines 54 to 59: the record built for one host name. *)
Definition record_of (ip hostname : string) : AddressableRecord :=
  {| id := None;
     content := ip;
     name := hostname;
     type := if JS.includes "." ip then A else AAAA;
     ttl := 1;
     proxied := None;
     comment := None |}.

Definition constructDNSRecords (request : Request) : Result (list AddressableRecord) :=
  match resolveIP request with
  | Throw e => Throw e
  | Return ip =>
      match URLSearchParams.get "hostname" (searchParams request) with
      | None => Throw (HttpError 422 hostname_required)
      | Some hostnames => Return (map (record_of ip) (JS.split "," hostnames))
      end
  end.

(** ** The Cloudflare client

    An awaited call of the client resolves to a value or rejects.  The
    client itself is not part of the worker: it is a state machine over
    a world of its own, each call giving a reply and the next world. *)

Inductive Reply (A : Type) :=
| Resolved (a : A)
| Rejected.

Arguments Resolved {A} a.
Arguments Rejected {A}.

Record Cloudflare (World : Type) := {
  (** [user.tokens.verify()], its [status] *)
  tokens_verify : World -> Reply string * World;
  (** [zones.list()], its [result] *)
  zones_list : World -> Reply (list Zone.t) * World;
  (** [dns.records.list({zone_id, name, type})], its [result] *)
  records_list :
    string -> string -> RecordType -> World -> Reply (list AddressableRecord) * World;
  (** [dns.records.update(id, params)] *)
  records_update : string -> RecordUpdateParams -> World -> Reply unit * World
}.

Arguments tokens_verify {World} _ _.
Arguments zones_list {World} _ _.
Arguments records_list {World} _ _ _ _ _.
Arguments records_update {World} _ _ _ _.

(** The calls the worker made, each with the reply it got. *)
Inductive Event :=
| TokensVerify (reply : Reply string)
| ZonesList (reply : Reply (list Zone.t))
| RecordsList (zone_id name : string) (type : RecordType)
    (reply : Reply (list AddressableRecord))
| RecordsUpdate (id : string) (params : RecordUpdateParams) (reply : Reply unit).

Definition Log := list Event.

(** ** Computations that call the client: state, exceptions and the log *)

Section Computation.

Variable World : Type.

Definition M (T : Type) : Type := World -> Result T * World * Log.

Definition ret {T} (x : T) : M T := fun w => (Return x, w, []).

Definition throw {T} (e : Thrown) : M T := fun w => (Throw e, w, []).

Definition bind {T U} (m : M T) (k : T -> M U) : M U :=
  fun w =>
    match m w with
    | (Return x, w1, l1) =>
        match k x w1 with
        | (r, w2, l2) => (r, w2, l1 ++ l2)
        end
    | (Throw e, w1, l1) => (Throw e, w1, l1)
    end.

(** [await call]: the reply is logged; a rejection is thrown, and it is
    not an [HttpError]. *)
Definition await {T} (call : World -> Reply T * World) (event : Reply T -> Event) : M T :=
  fun w =>
    match call w with
    | (Resolved x, w1) => (Return x, w1, [event (Resolved x)])
    | (Rejected, w1) => (Throw OtherError, w1, [event Rejected])
    end.

(** A computation that does not call the client. *)
Definition lift {T} (r : Result T) : M T := fun w => (r, w, []).

(** [for (const x of xs) body]: [continue] is the body returning, and an
    exception leaves the loop. *)
Fixpoint for_of {T} (xs : list T) (body : T -> M unit) : M unit :=
  match xs with
  | [] => ret tt
  | x :: rest => bind (body x) (fun _ => for_of rest body)
  end.

End Computation.

Arguments ret {World T} x _.
Arguments throw {World T} e _.
Arguments bind {World T U} m k _.
Arguments await {World T} call event _.
Arguments lift {World T} r _.
Arguments for_of {World T} xs body _.

Declare Scope worker_scope.
Delimit Scope worker_scope with worker.

Notation "x <- m ;; k" := (bind m (fun x => k))
  (at level 100, m at next level, right associativity) : worker_scope.
Notation "m ;; k" := (bind m (fun _ => k))
  (at level 100, right associativity) : worker_scope.

Local Open Scope worker_scope.

(** ** The reconciler, lines 67 to 116, and the handler, lines 118 to 141 *)

Definition conflict_message : string := "More than one matching record found!".

Definition no_zones_message : string :=
  "No zones found! You must supply an API Token scoped to a single zone.".

Definition ok_response : Response := {| body := "OK"; status := 200 |}.

Section Worker.

Variable World : Type.

(** [new Cloudflare(clientOptions)] *)
Variable new_Cloudflare : ClientOptions -> Cloudflare World.

(** Lines 102 to 109: what is sent for the record [current] found in
    [zone] for [newRecord]. *)
Definition update_params (newRecord : AddressableRecord) (zone : Zone.t)
    (current : AddressableRecord) : RecordUpdateParams :=
  {| u_content := content newRecord;
     u_zone_id := Zone.id zone;
     u_name := name newRecord;
     u_type := type newRecord;
     u_proxied := match proxied current with Some p => p | None => false end;
     u_comment := comment current |}.

(** Lines 82 to 111: the body of the inner loop. *)
Definition reconcile (cloudflare : Cloudflare World)
    (newRecord : AddressableRecord) (zone : Zone.t) : M World unit :=
  records <-
    await (records_list cloudflare (Zone.id zone) (name newRecord) (type newRecord))
          (RecordsList (Zone.id zone) (name newRecord) (type newRecord)) ;;
  if (1 <? length records)%nat then throw (HttpError 400 conflict_message)
  else
    match records with
    | [] => ret tt
    | current :: _ =>
        match id current with
        | None => ret tt
        | Some record_id =>
            let params := update_params newRecord zone current in
            await (records_update cloudflare record_id params)
                  (RecordsUpdate record_id params)
        end
    end.

Definition update (clientOptions : ClientOptions)
    (newRecords : list AddressableRecord) : M World Response :=
  let cloudflare := new_Cloudflare clientOptions in
  tokenStatus <- await (tokens_verify cloudflare) TokensVerify ;;
  if negb (String.eqb tokenStatus "active")
  then throw (HttpError 401 ("This API Token is " ++ tokenStatus))
  else
    zones <- await (zones_list cloudflare) ZonesList ;;
    if (length zones =? 0)%nat then throw (HttpError 400 no_zones_message)
    else
      for_of newRecords (fun newRecord =>
        for_of zones (fun zone => reconcile cloudflare newRecord zone)) ;;
      ret ok_response.

(** Lines 131 to 139: the response for what the [try] block gave. *)
Definition respond (outcome : Result Response) : Response :=
  match outcome with
  | Return response => response
  | Throw (HttpError statusCode message) => {| body := message; status := statusCode |}
  | Throw OtherError => {| body := "Internal Server Error"; status := 500 |}
  end.

(** The handler: the response, the world the client is left in and the
    calls made.  The [console.log] lines are left out. *)
Definition fetch (request : Request) (w : World) : Response * World * Log :=
  let attempt :=
    clientOptions <- lift (constructClientOptions request) ;;
    records <- lift (constructDNSRecords request) ;;
    update clientOptions records in
  match attempt w with
  | (outcome, w1, log) => (respond outcome, w1, log)
  end.

End Worker.

Arguments reconcile {World} cloudflare newRecord zone _.
Arguments update {World} new_Cloudflare clientOptions newRecords _.
Arguments fetch {World} new_Cloudflare request w.

(** ** The runs of the loop, as a relation

    The iteration visits the pairs of a record and a zone in the order
    of the nested loops.  [reconcile_run] lists what one pass of the
    body can do, [loop_run] what the two loops can do, [update_run]
    what [update] can do: the outcome, the world left and the log. *)

Definition pairs (newRecords : list AddressableRecord) (zones : list Zone.t)
    : list (AddressableRecord * Zone.t) :=
  flat_map (fun newRecord => map (pair newRecord) zones) newRecords.

(** A listing that found more than one record. *)
Definition is_conflict (e : Event) : bool :=
  match e with
  | RecordsList _ _ _ (Resolved records) => (1 <? length records)%nat
  | _ => false
  end.

(** A call the client answered. *)
Definition answered (e : Event) : bool :=
  match e with
  | TokensVerify (Resolved _) | ZonesList (Resolved _)
  | RecordsList _ _ _ (Resolved _) | RecordsUpdate _ _ (Resolved _) => true
  | _ => false
  end.

(** The log goes on with a listing: the loop went to its next pair. *)
Definition starts_with_listing (log : Log) : Prop :=
  match log with
  | RecordsList _ _ _ _ :: _ => True
  | _ => False
  end.

(** Every call of the log was answered and no listing found more than
    one record. *)
Definition clean (log : Log) : Prop :=
  Forall (fun e => answered e = true /\ is_conflict e = false) log.

(** A call of the loop: a listing or an update. *)
Definition is_record_call (e : Event) : bool :=
  match e with
  | RecordsList _ _ _ _ | RecordsUpdate _ _ _ => true
  | _ => false
  end.

(** What the listings of a log were asked for, in order, and what the
    listing for a pair is asked for. *)
Definition listing_key (e : Event) : list (string * string * RecordType) :=
  match e with
  | RecordsList zone_id name type _ => [(zone_id, name, type)]
  | _ => []
  end.

Definition listings (log : Log) : list (string * string * RecordType) :=
  flat_map listing_key log.

Definition pair_key (p : AddressableRecord * Zone.t) : string * string * RecordType :=
  (Zone.id (snd p), name (fst p), type (fst p)).

(** What [update] makes of the outcome of its loop. *)
Definition finish (outcome : Result unit) : Result Response :=
  match outcome with
  | Return _ => Return ok_response
  | Throw e => Throw e
  end.

(** A listing that makes the loop skip its pair. *)
Definition skipped (records : list AddressableRecord) : Prop :=
  records = [] \/ exists current, records = [current] /\ id current = None.

Section Runs.

Variable World : Type.
Variable cloudflare : Cloudflare World.

Inductive reconcile_run (newRecord : AddressableRecord) (zone : Zone.t)
    : World -> Result unit -> World -> Log -> Prop :=
| run_list_rejected w w1 :
    records_list cloudflare (Zone.id zone) (name newRecord) (type newRecord) w
      = (Rejected, w1) ->
    reconcile_run newRecord zone w (Throw OtherError) w1
      [RecordsList (Zone.id zone) (name newRecord) (type newRecord) Rejected]
| run_conflict w w1 records :
    records_list cloudflare (Zone.id zone) (name newRecord) (type newRecord) w
      = (Resolved records, w1) ->
    1 < length records ->
    reconcile_run newRecord zone w (Throw (HttpError 400 conflict_message)) w1
      [RecordsList (Zone.id zone) (name newRecord) (type newRecord) (Resolved records)]
| run_missing w w1 :
    records_list cloudflare (Zone.id zone) (name newRecord) (type newRecord) w
      = (Resolved [], w1) ->
    reconcile_run newRecord zone w (Return tt) w1
      [RecordsList (Zone.id zone) (name newRecord) (type newRecord) (Resolved [])]
| run_no_id w w1 current :
    records_list cloudflare (Zone.id zone) (name newRecord) (type newRecord) w
      = (Resolved [current], w1) ->
    id current = None ->
    reconcile_run newRecord zone w (Return tt) w1
      [RecordsList (Zone.id zone) (name newRecord) (type newRecord) (Resolved [current])]
| run_updated w w1 w2 current record_id :
    records_list cloudflare (Zone.id zone) (name newRecord) (type newRecord) w
      = (Resolved [current], w1) ->
    id current = Some record_id ->
    records_update cloudflare record_id (update_params newRecord zone current) w1
      = (Resolved tt, w2) ->
    reconcile_run newRecord zone w (Return tt) w2
      [RecordsList (Zone.id zone) (name newRecord) (type newRecord) (Resolved [current]);
       RecordsUpdate record_id (update_params newRecord zone current) (Resolved tt)]
| run_update_rejected w w1 w2 current record_id :
    records_list cloudflare (Zone.id zone) (name newRecord) (type newRecord) w
      = (Resolved [current], w1) ->
    id current = Some record_id ->
    records_update cloudflare record_id (update_params newRecord zone current) w1
      = (Rejected, w2) ->
    reconcile_run newRecord zone w (Throw OtherError) w2
      [RecordsList (Zone.id zone) (name newRecord) (type newRecord) (Resolved [current]);
       RecordsUpdate record_id (update_params newRecord zone current) Rejected].

Inductive loop_run : list (AddressableRecord * Zone.t)
    -> World -> Result unit -> World -> Log -> Prop :=
| loop_done w : loop_run [] w (Return tt) w []
| loop_next newRecord zone rest w w1 log1 outcome w2 log2 :
    reconcile_run newRecord zone w (Return tt) w1 log1 ->
    loop_run rest w1 outcome w2 log2 ->
    loop_run ((newRecord, zone) :: rest) w outcome w2 (log1 ++ log2)
| loop_thrown newRecord zone rest w e w1 log1 :
    reconcile_run newRecord zone w (Throw e) w1 log1 ->
    loop_run ((newRecord, zone) :: rest) w (Throw e) w1 log1.

Inductive update_run (newRecords : list AddressableRecord)
    : World -> Result Response -> World -> Log -> Prop :=
| verify_rejected w w1 :
    tokens_verify cloudflare w = (Rejected, w1) ->
    update_run newRecords w (Throw OtherError) w1 [TokensVerify Rejected]
| token_not_active w w1 tokenStatus :
    tokens_verify cloudflare w = (Resolved tokenStatus, w1) ->
    tokenStatus <> "active" ->
    update_run newRecords w
      (Throw (HttpError 401 ("This API Token is " ++ tokenStatus))) w1
      [TokensVerify (Resolved tokenStatus)]
| zones_rejected w w1 w2 :
    tokens_verify cloudflare w = (Resolved "active", w1) ->
    zones_list cloudflare w1 = (Rejected, w2) ->
    update_run newRecords w (Throw OtherError) w2
      [TokensVerify (Resolved "active"); ZonesList Rejected]
| no_zones w w1 w2 :
    tokens_verify cloudflare w = (Resolved "active", w1) ->
    zones_list cloudflare w1 = (Resolved [], w2) ->
    update_run newRecords w (Throw (HttpError 400 no_zones_message)) w2
      [TokensVerify (Resolved "active"); ZonesList (Resolved [])]
| loop_completed w w1 w2 zones w3 log :
    tokens_verify cloudflare w = (Resolved "active", w1) ->
    zones_list cloudflare w1 = (Resolved zones, w2) ->
    zones <> [] ->
    loop_run (pairs newRecords zones) w2 (Return tt) w3 log ->
    update_run newRecords w (Return ok_response) w3
      (TokensVerify (Resolved "active") :: ZonesList (Resolved zones) :: log)
| loop_failed w w1 w2 zones e w3 log :
    tokens_verify cloudflare w = (Resolved "active", w1) ->
    zones_list cloudflare w1 = (Resolved zones, w2) ->
    zones <> [] ->
    loop_run (pairs newRecords zones) w2 (Throw e) w3 log ->
    update_run newRecords w (Throw e) w3
      (TokensVerify (Resolved "active") :: ZonesList (Resolved zones) :: log).

(** What follows a listing in the log, by what the listing found. *)
Definition after_listing (newRecord : AddressableRecord) (zone : Zone.t)
    (records : list AddressableRecord) (outcome : Result unit) (w' : World)
    (after : Log) : Prop :=
  match records with
  | [] => (after = [] /\ outcome = Return tt) \/ starts_with_listing after
  | [current] =>
      match id current with
      | None => (after = [] /\ outcome = Return tt) \/ starts_with_listing after
      | Some record_id =>
          exists reply rest,
            after = RecordsUpdate record_id (update_params newRecord zone current) reply
                      :: rest
      end
  | _ =>
      after = [] /\ outcome = Throw (HttpError 400 conflict_message)
      /\ exists w0,
           records_list cloudflare (Zone.id zone) (name newRecord) (type newRecord) w0
           = (Resolved records, w')
  end.

End Runs.

Arguments reconcile_run {World} cloudflare newRecord zone _ _ _ _.
Arguments loop_run {World} cloudflare _ _ _ _ _.
Arguments update_run {World} cloudflare newRecords _ _ _ _.
Arguments after_listing {World} cloudflare newRecord zone records outcome w' after.

(** ** A client in memory

    An account with its zones and records, for running the worker on
    concrete requests.  It lists the records of a zone by type and by
    name without case, and an update replaces what the call sends. *)

Module Memory.

Record Account := {
  token_status : string;
  zones : list Zone.t;
  records : list (string * AddressableRecord)
}.

Definition matches (zone_id name : string) (type : RecordType)
    (entry : string * AddressableRecord) : bool :=
  String.eqb (fst entry) zone_id
  && String.eqb (JS.toLowerCase (DNS.name (snd entry))) (JS.toLowerCase name)
  && type_eqb (DNS.type (snd entry)) type.

Definition has_id (record_id : string) (record : AddressableRecord) : bool :=
  match DNS.id record with
  | Some i => String.eqb i record_id
  | None => false
  end.

Definition write (record_id : string) (params : RecordUpdateParams)
    (entry : string * AddressableRecord) : string * AddressableRecord :=
  if String.eqb (fst entry) (u_zone_id params) && has_id record_id (snd entry)
  then (fst entry,
        {| DNS.id := DNS.id (snd entry);
           content := u_content params;
           DNS.name := u_name params;
           type := u_type params;
           ttl := ttl (snd entry);
           proxied := Some (u_proxied params);
           comment := u_comment params |})
  else entry.

Definition client (_ : ClientOptions) : Cloudflare Account :=
  {| tokens_verify := fun w => (Resolved (token_status w), w);
     zones_list := fun w => (Resolved (zones w), w);
     records_list := fun zone_id name type w =>
       (Resolved (map snd (filter (matches zone_id name type) (records w))), w);
     records_update := fun record_id params w =>
       (Resolved tt,
        {| token_status := token_status w;
           zones := zones w;
           records := map (write record_id params) (records w) |}) |}.

End Memory.

(** ** Sample requests and a sample account *)

Module Sample.

Definition zone : Zone.t := {| Zone.id := "z1"; Zone.name := "example.com" |}.

Definition home : AddressableRecord :=
  {| id := Some "r1"; content := "192.0.2.1"; name := "home.example.com";
     type := A; ttl := 300; proxied := Some true; comment := Some "router" |}.

Definition twin (record_id : string) : AddressableRecord :=
  {| id := Some record_id; content := "192.0.2.7"; name := "dup.example.com";
     type := A; ttl := 300; proxied := None; comment := None |}.

(** A record the client lists without an id. *)
Definition draft : AddressableRecord :=
  {| id := None; content := "192.0.2.9"; name := "draft.example.com";
     type := A; ttl := 300; proxied := None; comment := None |}.

Definition account : Memory.Account :=
  {| Memory.token_status := "active";
     Memory.zones := [zone];
     Memory.records :=
       [("z1", home); ("z1", twin "r2"); ("z1", twin "r3"); ("z1", draft)] |}.

(** The account after the record [home] was given the address
    198.51.100.9 under the name the request wrote. *)
Definition account_after (hostname : string) : Memory.Account :=
  {| Memory.token_status := "active";
     Memory.zones := [zone];
     Memory.records :=
       [("z1", {| id := Some "r1"; content := "198.51.100.9"; name := hostname;
                  type := A; ttl := 300; proxied := Some true;
                  comment := Some "router" |});
        ("z1", twin "r2"); ("z1", twin "r3"); ("z1", draft)] |}.

Definition expired_account : Memory.Account :=
  {| Memory.token_status := "expired"; Memory.zones := [zone]; Memory.records := [] |}.

Definition empty_account : Memory.Account :=
  {| Memory.token_status := "active"; Memory.zones := []; Memory.records := [] |}.

(** [Basic] and the Base64 encoding of [user@example.com:tok:en]. *)
Definition authorization : string := "Basic dXNlckBleGFtcGxlLmNvbTp0b2s6ZW4=".

Definition credentials : ClientOptions :=
  {| apiEmail := "user@example.com"; apiToken := "tok:en" |}.

Definition request (params : URLSearchParams.t) : Request :=
  {| headers := [("Authorization", authorization)]; searchParams := params |}.

(** [?ip=198.51.100.9&hostname=...] *)
Definition request_for (hostnames : string) : Request :=
  request [("ip", "198.51.100.9"); ("hostname", hostnames)].

(** [?ip=auto&hostname=home.example.com], with and without the header
    of the caller's address. *)
Definition request_auto (connecting : Headers.t) : Request :=
  {| headers := ("Authorization", authorization) :: connecting;
     searchParams := [("ip", "auto"); ("hostname", "home.example.com")] |}.

Definition verified : Event := TokensVerify (Resolved "active").

Definition zones_listed : Event := ZonesList (Resolved [zone]).

Definition listed (hostname : string) (found : list AddressableRecord) : Event :=
  RecordsList "z1" hostname A (Resolved found).

Definition sent (hostname : string) : RecordUpdateParams :=
  {| u_content := "198.51.100.9"; u_zone_id := "z1"; u_name := hostname;
     u_type := A; u_proxied := true; u_comment := Some "router" |}.

Definition updated (hostname : string) : Event :=
  RecordsUpdate "r1" (sent hostname) (Resolved tt).

End Sample.

(** ** What the further properties speak of *)

(** The statuses the worker answers with. *)
Definition statuses : list nat := [200; 400; 401; 422; 500].

(** An update call. *)
Definition is_update (e : Event) : bool :=
  match e with
  | RecordsUpdate _ _ _ => true
  | _ => false
  end.

(** The number of commas of a string. *)
Fixpoint commas (s : string) : nat :=
  match s with
  | EmptyString => 0
  | String a r => (if Ascii.eqb a "," then 1 else 0) + commas r
  end.

(** A client in memory whose token may read and not write: it answers
    as [Memory.client] does, and rejects every update. *)
Definition read_only_client (clientOptions : ClientOptions)
    : Cloudflare Memory.Account :=
  {| tokens_verify := tokens_verify (Memory.client clientOptions);
     zones_list := zones_list (Memory.client clientOptions);
     records_list := records_list (Memory.client clientOptions);
     records_update := fun _ _ w => (Rejected, w) |}.

(** * Properties *)

(** ** The builtins on concrete values *)

Example split_keeps_empty_pieces : JS.split "," "a,,b," = ["a"; ""; "b"; ""].
Proof. reflexivity. Qed.

Example split_of_empty_string : JS.split "," "" = [""].
Proof. reflexivity. Qed.

Example btoa_of_credentials :
  Base64.btoa "user@example.com:tok:en" = "dXNlckBleGFtcGxlLmNvbTp0b2s6ZW4=".
Proof. vm_compute. reflexivity. Qed.

(** [atob] reads a payload with its padding, without it and with white
    space inside; it refuses a length of 1 modulo 4, a character outside
    the alphabet and a padding that does not fill a group of four. *)
Example atob_accepts :
  Base64.atob "dXNlcg==" = Some "user"
  /\ Base64.atob "dXNlcg" = Some "user"
  /\ Base64.atob "dXN lcg==" = Some "user"
  /\ Base64.atob "" = Some "".
Proof. repeat split; vm_compute; reflexivity. Qed.

Example atob_refuses :
  Base64.atob "undefined" = None
  /\ Base64.atob "user:token" = None
  /\ Base64.atob "dXNlcg=" = None.
Proof. repeat split; vm_compute; reflexivity. Qed.

(** ** Strings *)

Section StringFacts.

Variable c : ascii.

Lemma indexOf_append (a b : string) :
  JS.indexOf c a = None ->
  JS.indexOf c (a ++ String c b) = Some (String.length a).
Proof.
  induction a as [|x a IH]; simpl.
  - now rewrite Ascii.eqb_refl.
  - destruct (Ascii.eqb x c); [discriminate|].
    destruct (JS.indexOf c a); [discriminate|].
    intros _. now rewrite IH.
Qed.

Lemma split_not_nil (s : string) : JS.split c s <> [].
Proof.
  destruct s as [|x s]; simpl; [discriminate|].
  destruct (Ascii.eqb x c); [discriminate|].
  destruct (JS.split c s); discriminate.
Qed.

Lemma split_without (s : string) :
  JS.indexOf c s = None -> JS.split c s = [s].
Proof.
  induction s as [|x s IH]; simpl; [reflexivity|].
  destruct (Ascii.eqb x c); [discriminate|].
  destruct (JS.indexOf c s); [discriminate|].
  intros _. now rewrite IH.
Qed.

Lemma split_append (a b : string) :
  JS.indexOf c a = None ->
  JS.split c (a ++ String c b) = a :: JS.split c b.
Proof.
  induction a as [|x a IH]; simpl.
  - now rewrite Ascii.eqb_refl.
  - destruct (Ascii.eqb x c); [discriminate|].
    destruct (JS.indexOf c a); [discriminate|].
    intros _. now rewrite IH.
Qed.

Lemma join_split (s : string) : JS.join (String c "") (JS.split c s) = s.
Proof.
  induction s as [|x s IH]; simpl; [reflexivity|].
  destruct (Ascii.eqb_spec x c) as [->|_].
  - pose proof (split_not_nil s) as N.
    destruct (JS.split c s) as [|p ps]; [contradiction|].
    simpl. f_equal. exact IH.
  - pose proof (split_not_nil s) as N.
    destruct (JS.split c s) as [|p ps]; [contradiction|].
    simpl in *. destruct ps; simpl in *; now rewrite <- IH.
Qed.

Lemma split_pieces (s : string) :
  Forall (fun piece => JS.indexOf c piece = None) (JS.split c s).
Proof.
  induction s as [|x s IH]; simpl.
  - now constructor.
  - destruct (Ascii.eqb x c) eqn:E.
    + now constructor.
    + destruct (JS.split c s) as [|p ps]; constructor; simpl; try rewrite E.
      * reflexivity.
      * constructor.
      * inversion IH as [|? ? Hp _]; now rewrite Hp.
      * now inversion IH.
Qed.

End StringFacts.

Lemma substring_prefix (a b : string) :
  JS.substring 0 (String.length a) (a ++ b) = a.
Proof.
  unfold JS.substring. rewrite Nat.sub_0_r.
  induction a as [|x a IH]; simpl.
  - now destruct b.
  - now rewrite IH.
Qed.

Lemma substring_whole (s : string) : String.substring 0 (String.length s) s = s.
Proof. induction s as [|x s IH]; simpl; [reflexivity | now rewrite IH]. Qed.

Lemma substring_suffix (a b : string) (c : ascii) :
  JS.substring_from (String.length a + 1) (a ++ String c b) = b.
Proof.
  unfold JS.substring_from.
  induction a as [|x a IH]; simpl.
  - rewrite Nat.sub_0_r. apply substring_whole.
  - exact IH.
Qed.

(** ** Base64: what [btoa] writes, [atob] reads back *)

Module Base64Facts.

Import Base64.

Ltac divmod := zify; Z.to_euclidean_division_equations; lia.

Lemma alphabet_sound : forallb sound_value (map N.of_nat (seq 0 64)) = true.
Proof. vm_compute. reflexivity. Qed.

Lemma sound_value_lt (v : N) : (v < 64)%N -> sound_value v = true.
Proof.
  intros H. apply (proj1 (forallb_forall _ _) alphabet_sound).
  rewrite <- (N2Nat.id v). apply in_map, in_seq. lia.
Qed.

Lemma value_of_char_of (v : N) : (v < 64)%N -> value_of (char_of v) = Some v.
Proof.
  intros H. apply sound_value_lt in H. unfold sound_value in H.
  rewrite !andb_true_iff in H. destruct H as [[[H _] _] _].
  destruct (value_of (char_of v)); [|discriminate].
  now apply N.eqb_eq in H; subst.
Qed.

Lemma char_of_not_whitespace (v : N) :
  (v < 64)%N -> is_whitespace (char_of v) = false.
Proof.
  intros H. apply sound_value_lt in H. unfold sound_value in H.
  rewrite !andb_true_iff in H. destruct H as [[[_ H] _] _].
  now apply negb_true_iff in H.
Qed.

Lemma char_of_not_equals (v : N) :
  (v < 64)%N -> Ascii.eqb (char_of v) "=" = false.
Proof.
  intros H. apply sound_value_lt in H. unfold sound_value in H.
  rewrite !andb_true_iff in H. destruct H as [[[_ _] H] _].
  now apply negb_true_iff in H.
Qed.

Lemma char_of_not_space (v : N) :
  (v < 64)%N -> Ascii.eqb (char_of v) " " = false.
Proof.
  intros H. apply sound_value_lt in H. unfold sound_value in H.
  rewrite !andb_true_iff in H. destruct H as [_ H].
  now apply negb_true_iff in H.
Qed.

(** Induction on a list three elements at a time. *)
Lemma list_ind3 {T} (P : list T -> Prop) :
  P [] -> (forall a, P [a]) -> (forall a b, P [a; b]) ->
  (forall a b c l, P l -> P (a :: b :: c :: l)) ->
  forall l, P l.
Proof.
  intros H0 H1 H2 H3 l.
  assert (H : P l /\ (forall a, P (a :: l)) /\ (forall a b, P (a :: b :: l))).
  { induction l as [|x l [Hl [Hl1 Hl2]]]; [now auto|].
    repeat split; auto. }
  apply H.
Qed.

Lemma sextets_lt (bytes : list N) :
  Forall byte bytes -> Forall (fun v => (v < 64)%N) (sextets bytes).
Proof.
  unfold byte.
  induction bytes as [| a | a b | a b c l IH] using list_ind3; intros H; simpl.
  - constructor.
  - inversion_clear H. repeat constructor; divmod.
  - inversion_clear H as [|? ? Ha H']. inversion_clear H'.
    repeat constructor; divmod.
  - inversion_clear H as [|? ? Ha H']. inversion_clear H' as [|? ? Hb H''].
    inversion_clear H'' as [|? ? Hc Hl].
    repeat (constructor; [divmod|]). now apply IH.
Qed.

Lemma octets_sextets (bytes : list N) :
  Forall byte bytes -> octets (sextets bytes) = bytes.
Proof.
  unfold byte.
  induction bytes as [| a | a b | a b c l IH] using list_ind3; intros H; simpl.
  - reflexivity.
  - inversion_clear H. f_equal. divmod.
  - inversion_clear H as [|? ? Ha H']. inversion_clear H'.
    f_equal; [divmod|]. f_equal. divmod.
  - inversion_clear H as [|? ? Ha H']. inversion_clear H' as [|? ? Hb H''].
    inversion_clear H'' as [|? ? Hc Hl].
    rewrite (IH Hl). f_equal; [divmod|]. f_equal; [divmod|]. f_equal. divmod.
Qed.

Lemma padding_step (n : nat) : padding (S (S (S n))) = padding n.
Proof.
  unfold padding. replace (S (S (S n))) with (n + 1 * 3) by lia.
  now rewrite Nat.Div0.mod_add.
Qed.

Lemma sextets_length (bytes : list N) :
  length (sextets bytes) mod 4 <> 1
  /\ (length (sextets bytes) + length (padding (length bytes))) mod 4 = 0.
Proof.
  induction bytes as [| a | a b | a b c l [IH1 IH2]] using list_ind3;
    try (split; [discriminate | reflexivity]).
  change (length (a :: b :: c :: l)) with (S (S (S (length l)))).
  rewrite padding_step.
  change (length (sextets (a :: b :: c :: l))) with (4 + length (sextets l)).
  split.
  - replace (4 + length (sextets l)) with (length (sextets l) + 1 * 4) by lia.
    now rewrite Nat.Div0.mod_add.
  - replace (4 + length (sextets l) + length (padding (length l)))
      with (length (sextets l) + length (padding (length l)) + 1 * 4) by lia.
    now rewrite Nat.Div0.mod_add.
Qed.

Lemma filter_all {T} (f : T -> bool) (l : list T) :
  Forall (fun x => f x = true) l -> filter f l = l.
Proof.
  induction 1 as [|x l Hx _ IH]; simpl; [reflexivity|].
  now rewrite Hx, IH.
Qed.

Lemma ends_with_equals_last (data : list ascii) (c : ascii) :
  ends_with_equals (data ++ [c]) = Ascii.eqb c "=".
Proof. unfold ends_with_equals. now rewrite rev_unit. Qed.

Lemma ends_with_equals_body (data : list ascii) :
  Forall (fun c => Ascii.eqb c "=" = false) data -> ends_with_equals data = false.
Proof.
  intros H. destruct data as [|x data] using rev_ind; [reflexivity|].
  rewrite ends_with_equals_last.
  apply Forall_app in H. destruct H as [_ H]. now inversion H.
Qed.

Lemma strip_padding_body (data : list ascii) (n : nat) :
  Forall (fun c => Ascii.eqb c "=" = false) data ->
  strip_padding (data ++ padding n) = data.
Proof.
  intros H. pose proof (ends_with_equals_body data H) as E.
  unfold padding, strip_padding.
  destruct (n mod 3) as [|[|[|k]]].
  - rewrite app_nil_r. now rewrite E.
  - change (data ++ ["="%char; "="%char]) with (data ++ ["="%char] ++ ["="%char]).
    rewrite app_assoc, ends_with_equals_last, removelast_last.
    now rewrite ends_with_equals_last, removelast_last.
  - rewrite ends_with_equals_last, removelast_last. now rewrite E.
  - rewrite app_nil_r. now rewrite E.
Qed.

Lemma values_of_chars (vs : list N) :
  Forall (fun v => (v < 64)%N) vs -> values_of (map char_of vs) = Some vs.
Proof.
  induction 1 as [|v vs Hv _ IH]; simpl; [reflexivity|].
  now rewrite (value_of_char_of v Hv), IH.
Qed.

Lemma bytes_of_bytes (s : string) : Forall byte (bytes_of s).
Proof.
  unfold bytes_of. apply Forall_forall. intros n Hn.
  apply in_map_iff in Hn. destruct Hn as [a [<- _]]. apply N_ascii_bounded.
Qed.

Lemma string_of_bytes_of (s : string) : string_of (bytes_of s) = s.
Proof.
  unfold string_of, bytes_of. rewrite map_map.
  rewrite (map_ext _ (fun a => a)) by apply ascii_N_embedding.
  rewrite map_id. apply string_of_list_ascii_of_string.
Qed.

(** The characters [btoa] writes: those of the alphabet, then the padding. *)
Lemma chars_of_btoa (s : string) :
  list_ascii_of_string (btoa s)
  = map char_of (sextets (bytes_of s)) ++ padding (length (bytes_of s)).
Proof. unfold btoa. apply list_ascii_of_string_of_list_ascii. Qed.

Lemma body_chars (s : string) (p : ascii -> bool) :
  (forall v, (v < 64)%N -> p (char_of v) = true) ->
  Forall (fun c => p c = true) (map char_of (sextets (bytes_of s))).
Proof.
  intros H. apply Forall_map.
  eapply Forall_impl; [|apply sextets_lt, bytes_of_bytes].
  intros v Hv. now apply H.
Qed.

(** [atob(btoa(s))] is [s], for every byte string. *)
Lemma atob_btoa (s : string) : atob (btoa s) = Some s.
Proof.
  unfold atob. cbv zeta. rewrite chars_of_btoa.
  set (chars := map char_of (sextets (bytes_of s))).
  set (pad := padding (length (bytes_of s))).
  assert (W : filter (fun c => negb (is_whitespace c)) (chars ++ pad) = chars ++ pad).
  { apply filter_all, Forall_app. split.
    - apply (body_chars s (fun c => negb (is_whitespace c))).
      intros v Hv. now rewrite char_of_not_whitespace.
    - unfold pad, padding.
      destruct (length (bytes_of s) mod 3) as [|[|[|k]]]; repeat constructor. }
  rewrite W.
  destruct (sextets_length (bytes_of s)) as [L1 L0].
  assert (E0 : (length (chars ++ pad) mod 4 =? 0)%nat = true).
  { rewrite length_app. unfold chars, pad. rewrite length_map, L0. reflexivity. }
  rewrite E0. unfold pad. rewrite strip_padding_body.
  2:{ eapply Forall_impl; [|apply (body_chars s (fun c => negb (Ascii.eqb c "=")))].
      - intros c Hc. now apply negb_true_iff in Hc.
      - intros v Hv. now rewrite char_of_not_equals. }
  assert (E1 : (length chars mod 4 =? 1)%nat = false).
  { apply Nat.eqb_neq. unfold chars. now rewrite length_map. }
  rewrite E1. unfold chars.
  rewrite values_of_chars by apply sextets_lt, bytes_of_bytes.
  rewrite octets_sextets by apply bytes_of_bytes.
  now rewrite string_of_bytes_of.
Qed.

Lemma indexOf_chars (c : ascii) (l : list ascii) :
  Forall (fun x => Ascii.eqb x c = false) l ->
  JS.indexOf c (string_of_list_ascii l) = None.
Proof.
  induction 1 as [|x l Hx _ IH]; simpl; [reflexivity|].
  now rewrite Hx, IH.
Qed.

(** [btoa] writes no space. *)
Lemma btoa_no_space (s : string) : JS.indexOf " " (btoa s) = None.
Proof.
  unfold btoa. apply indexOf_chars, Forall_app. split.
  - eapply Forall_impl; [|apply (body_chars s (fun c => negb (Ascii.eqb c " ")))].
    + intros c Hc. now apply negb_true_iff in Hc.
    + intros v Hv. now rewrite char_of_not_space.
  - unfold padding.
    destruct (length (bytes_of s) mod 3) as [|[|[|k]]]; repeat constructor.
Qed.

End Base64Facts.

(** ** The reconciler: every run of the functions is a run of the relations *)

Section RunFacts.

Variable World : Type.
Variable cloudflare : Cloudflare World.

Lemma reconcile_sound newRecord zone w outcome w' log :
  reconcile cloudflare newRecord zone w = (outcome, w', log) ->
  reconcile_run cloudflare newRecord zone w outcome w' log.
Proof.
  unfold reconcile, bind, await.
  destruct (records_list cloudflare (Zone.id zone) (name newRecord) (type newRecord) w)
    as [[records|] w1] eqn:L.
  - destruct records as [|current [|second rest]]; simpl.
    + intros H. inversion H. subst. now apply run_missing.
    + destruct (id current) as [record_id|] eqn:I; simpl.
      * destruct (records_update cloudflare record_id
                    (update_params newRecord zone current) w1)
          as [[[]|] w2] eqn:U;
          intros H; inversion H; subst.
        -- now apply run_updated with (w1 := w1).
        -- now apply run_update_rejected with (w1 := w1).
      * intros H. inversion H. subst. now apply run_no_id.
    + intros H. inversion H. subst. apply run_conflict; [assumption|simpl; lia].
  - intros H. inversion H. subst. now apply run_list_rejected.
Qed.

Lemma reconcile_complete newRecord zone w outcome w' log :
  reconcile_run cloudflare newRecord zone w outcome w' log ->
  reconcile cloudflare newRecord zone w = (outcome, w', log).
Proof.
  intros H. unfold reconcile, bind, await.
  inversion H as [? ? L | ? ? records L N | ? ? L | ? ? current L I
                  | ? ? ? current record_id L I U | ? ? ? current record_id L I U];
    subst; rewrite L.
  - reflexivity.
  - destruct records as [|r1 [|r2 records]]; simpl in N; try lia. reflexivity.
  - reflexivity.
  - simpl. now rewrite I.
  - simpl. now rewrite I, U.
  - simpl. now rewrite I, U.
Qed.

(** The loop over the pairs, one loop for the two of [update]. *)
Lemma loop_complete l w outcome w' log :
  loop_run cloudflare l w outcome w' log ->
  for_of l (fun p => reconcile cloudflare (fst p) (snd p)) w = (outcome, w', log).
Proof.
  intros H.
  induction H as [w | newRecord zone rest w w1 log1 o w2 log2 Hb Hl IH
                    | newRecord zone rest w e w1 log1 Hb]; simpl.
  - reflexivity.
  - unfold bind. simpl. rewrite (reconcile_complete _ _ _ _ _ _ Hb). now rewrite IH.
  - unfold bind. simpl. now rewrite (reconcile_complete _ _ _ _ _ _ Hb).
Qed.

Lemma loop_run_append l1 l2 w w1 log1 outcome w2 log2 :
  loop_run cloudflare l1 w (Return tt) w1 log1 ->
  loop_run cloudflare l2 w1 outcome w2 log2 ->
  loop_run cloudflare (l1 ++ l2) w outcome w2 (log1 ++ log2).
Proof.
  intros H1 H2. remember (Return tt) as done eqn:D.
  induction H1 as [w | newRecord zone rest w wa loga o wb logb Hb Hl IH
                     | newRecord zone rest w e wa loga Hb]; subst.
  - exact H2.
  - simpl. rewrite <- app_assoc. eapply loop_next; [exact Hb|]. now apply IH.
  - discriminate.
Qed.

Lemma loop_run_thrown l1 l2 w e w1 log1 :
  loop_run cloudflare l1 w (Throw e) w1 log1 ->
  loop_run cloudflare (l1 ++ l2) w (Throw e) w1 log1.
Proof.
  intros H1. remember (Throw e) as thrown eqn:D.
  induction H1 as [w | newRecord zone rest w wa loga o wb logb Hb Hl IH
                     | newRecord zone rest w e' wa loga Hb]; subst.
  - discriminate.
  - simpl. eapply loop_next; [exact Hb|]. now apply IH.
  - simpl. now apply loop_thrown.
Qed.

Lemma zones_loop_sound newRecord zones w outcome w' log :
  for_of zones (fun zone => reconcile cloudflare newRecord zone) w = (outcome, w', log) ->
  loop_run cloudflare (map (pair newRecord) zones) w outcome w' log.
Proof.
  revert w log. induction zones as [|zone zones IH]; intros w log; simpl.
  - unfold ret. intros H. inversion H. subst. constructor.
  - unfold bind.
    destruct (reconcile cloudflare newRecord zone w) as [[[[]|e] w1] log1] eqn:B.
    + destruct (for_of zones _ w1) as [[o2 w2] log2] eqn:F.
      intros H. inversion H. subst.
      eapply loop_next; [apply reconcile_sound; exact B | apply IH; exact F].
    + intros H. inversion H. subst. now apply loop_thrown, reconcile_sound.
Qed.

Lemma records_loop_sound newRecords zones w outcome w' log :
  for_of newRecords (fun newRecord =>
    for_of zones (fun zone => reconcile cloudflare newRecord zone)) w
    = (outcome, w', log) ->
  loop_run cloudflare (pairs newRecords zones) w outcome w' log.
Proof.
  revert w log. induction newRecords as [|newRecord newRecords IH]; intros w log; simpl.
  - unfold ret. intros H. inversion H. subst. constructor.
  - unfold bind.
    destruct (for_of zones _ w) as [[[[]|e] w1] log1] eqn:Z.
    + destruct (for_of newRecords _ w1) as [[o2 w2] log2] eqn:F.
      intros H. inversion H. subst.
      eapply loop_run_append; [apply zones_loop_sound; exact Z | apply IH; exact F].
    + intros H. inversion H. subst. now apply loop_run_thrown, zones_loop_sound.
Qed.

End RunFacts.

Section HandlerFacts.

Variable World : Type.
Variable new_Cloudflare : ClientOptions -> Cloudflare World.

Lemma update_sound clientOptions newRecords w outcome w' log :
  update new_Cloudflare clientOptions newRecords w = (outcome, w', log) ->
  update_run (new_Cloudflare clientOptions) newRecords w outcome w' log.
Proof.
  unfold update, bind, await.
  destruct (tokens_verify (new_Cloudflare clientOptions) w)
    as [[tokenStatus|] w1] eqn:V.
  - destruct (String.eqb_spec tokenStatus "active") as [->|N]; simpl.
    + destruct (zones_list (new_Cloudflare clientOptions) w1)
        as [[zones|] w2] eqn:Z.
      * destruct zones as [|zone zones]; cbn [length Nat.eqb].
        -- intros H. inversion H. subst. now apply no_zones with (w1 := w1).
        -- destruct (for_of newRecords _ w2) as [[[[]|e] w3] log3] eqn:F;
             cbn [ret app];
             intros H; inversion H; subst; rewrite ?app_nil_r.
           ++ eapply loop_completed; eauto; [discriminate|].
              apply records_loop_sound. exact F.
           ++ eapply loop_failed; eauto; [discriminate|].
              apply records_loop_sound. exact F.
      * intros H. inversion H. subst. now apply zones_rejected with (w1 := w1).
    + intros H. inversion H. subst. now apply token_not_active.
  - intros H. inversion H. subst. now apply verify_rejected.
Qed.

(** The handler calls the client only through [update], and only when
    the decoder and the parser returned. *)
Lemma fetch_cases request w response w' log :
  fetch new_Cloudflare request w = (response, w', log) ->
  (log = [] /\ w' = w)
  \/ exists clientOptions records outcome,
       constructClientOptions request = Return clientOptions
       /\ constructDNSRecords request = Return records
       /\ update_run (new_Cloudflare clientOptions) records w outcome w' log
       /\ response = respond outcome.
Proof.
  unfold fetch, bind, lift.
  destruct (constructClientOptions request) as [clientOptions|e1].
  - destruct (constructDNSRecords request) as [records|e2].
    + destruct (update new_Cloudflare clientOptions records w)
        as [[outcome w1] log1] eqn:U.
      simpl. intros H. inversion H. subst. right.
      exists clientOptions, records, outcome. repeat split.
      now apply update_sound.
    + simpl. intros H. inversion H. now left.
  - simpl. intros H. inversion H. now left.
Qed.

End HandlerFacts.

(** ** Where a call stands in the log of the loop *)

Lemma log_split (l1 l2 before after : Log) (e : Event) :
  l1 ++ l2 = before ++ e :: after ->
  (exists after1, l1 = before ++ e :: after1 /\ after = after1 ++ l2)
  \/ (exists before2, before = l1 ++ before2 /\ l2 = before2 ++ e :: after).
Proof.
  revert before. induction l1 as [|x l1 IH]; intros before H.
  - right. now exists before.
  - destruct before as [|b before]; simpl in H; inversion H; subst.
    + left. now exists l1.
    + destruct (IH before H2) as [[after1 [-> ->]]|[before2 [-> ->]]].
      * left. now exists after1.
      * right. now exists before2.
Qed.

(** A log of one or two calls, read against [before ++ e :: after]. *)
Ltac log_positions H :=
  match type of H with
  | _ = ?before ++ _ :: _ =>
      destruct before as [|? [|? [|? ?]]]; simpl in H; inversion H; subst; clear H
  end.

Section LogFacts.

Variable World : Type.
Variable cloudflare : Cloudflare World.

Lemma loop_run_head l w outcome w' log :
  loop_run cloudflare l w outcome w' log ->
  (log = [] /\ outcome = Return tt) \/ starts_with_listing log.
Proof.
  intros H. destruct H as [w | newRecord zone rest w w1 log1 o w2 log2 Hb Hl
                             | newRecord zone rest w e w1 log1 Hb].
  - now left.
  - right. inversion Hb; subst; exact I.
  - right. inversion Hb; subst; exact I.
Qed.

Lemma loop_listing l w outcome w' log before zone_id name type records after :
  loop_run cloudflare l w outcome w' log ->
  log = before ++ RecordsList zone_id name type (Resolved records) :: after ->
  exists newRecord zone,
    In (newRecord, zone) l
    /\ zone_id = Zone.id zone /\ name = DNS.name newRecord /\ type = DNS.type newRecord
    /\ after_listing cloudflare newRecord zone records outcome w' after.
Proof.
  intros H. revert before after.
  induction H as [w | newRecord zone rest w w1 log1 o w2 log2 Hb Hl IH
                    | newRecord zone rest w e w1 log1 Hb]; intros before after E.
  - now destruct before.
  - apply log_split in E. destruct E as [[after1 [E ->]]|[before2 [-> E]]].
    + exists newRecord, zone. split; [now left|].
      revert E. inversion Hb; subst; intros E; log_positions E;
        repeat split; unfold after_listing.
      * simpl. apply (loop_run_head _ _ _ _ _ Hl).
      * match goal with I : id _ = None |- _ => rewrite I end.
        simpl. apply (loop_run_head _ _ _ _ _ Hl).
      * match goal with I : id _ = Some _ |- _ => rewrite I end.
        simpl. eauto.
    + destruct (IH _ _ E) as [nr [z [Hin Hrest]]].
      exists nr, z. split; [now right | exact Hrest].
  - exists newRecord, zone. split; [now left|].
    revert E. inversion Hb; subst; intros E; log_positions E;
      repeat split; unfold after_listing.
    + destruct records as [|r1 [|r2 records]]; simpl in *; try lia.
      repeat split. now exists w.
    + match goal with I : id _ = Some _ |- _ => rewrite I end. eauto.
Qed.

(** A listing that found more than one record: the pairs before its
    pair were reconciled in full, the listing was made in the world they
    left, and the loop ends with it. *)
Lemma loop_conflict l w outcome w' log before zone_id name type records after :
  loop_run cloudflare l w outcome w' log ->
  log = before ++ RecordsList zone_id name type (Resolved records) :: after ->
  1 < length records ->
  exists done newRecord zone todo w0,
    l = done ++ (newRecord, zone) :: todo
    /\ loop_run cloudflare done w (Return tt) w0 before
    /\ records_list cloudflare zone_id name type w0 = (Resolved records, w')
    /\ outcome = Throw (HttpError 400 conflict_message)
    /\ after = [].
Proof.
  intros H. revert before after.
  induction H as [w | newRecord zone rest w w1 log1 o w2 log2 Hb Hl IH
                    | newRecord zone rest w e w1 log1 Hb]; intros before after E N.
  - now destruct before.
  - apply log_split in E. destruct E as [[after1 [E ->]]|[before2 [-> E]]].
    + revert E. inversion Hb; subst; intros E; log_positions E; simpl in N; lia.
    + destruct (IH _ _ E N) as [done [nr [z [todo [w0 [-> [D [L [-> ->]]]]]]]]].
      exists ((newRecord, zone) :: done), nr, z, todo, w0.
      repeat split; try assumption. now apply loop_next with (w1 := w1).
  - revert E. inversion Hb; subst; intros E; log_positions E; simpl in N; try lia.
    exists [], newRecord, zone, rest, w. repeat split; [constructor | assumption].
Qed.

Lemma loop_update l w outcome w' log before record_id params reply after :
  loop_run cloudflare l w outcome w' log ->
  log = before ++ RecordsUpdate record_id params reply :: after ->
  exists newRecord zone current before0,
    In (newRecord, zone) l
    /\ before = before0 ++ [RecordsList (Zone.id zone) (name newRecord) (type newRecord)
                               (Resolved [current])]
    /\ id current = Some record_id
    /\ params = update_params newRecord zone current.
Proof.
  intros H. revert before after.
  induction H as [w | newRecord zone rest w w1 log1 o w2 log2 Hb Hl IH
                    | newRecord zone rest w e w1 log1 Hb]; intros before after E.
  - now destruct before.
  - apply log_split in E. destruct E as [[after1 [E ->]]|[before2 [-> E]]].
    + revert E. inversion Hb; subst; intros E; log_positions E.
      exists newRecord, zone, current, []. repeat split; [now left | assumption].
    + destruct (IH _ _ E) as [nr [z [current [before0 [Hin [-> Hrest]]]]]].
      exists nr, z, current, (log1 ++ before0).
      split; [now right|]. split; [now rewrite app_assoc | exact Hrest].
  - revert E. inversion Hb; subst; intros E; log_positions E.
    exists newRecord, zone, current, []. repeat split; [now left | assumption].
Qed.

Lemma loop_clean l w outcome w' log :
  loop_run cloudflare l w outcome w' log -> clean log -> outcome = Return tt.
Proof.
  unfold clean. intros H.
  induction H as [w | newRecord zone rest w w1 log1 o w2 log2 Hb Hl IH
                    | newRecord zone rest w e w1 log1 Hb]; intros C.
  - reflexivity.
  - apply Forall_app in C. now apply IH.
  - inversion Hb; subst; repeat
      match goal with
      | C : Forall _ (_ :: _) |- _ => inversion_clear C
      | C : _ /\ _ |- _ => destruct C
      end; cbn [answered is_conflict] in *; try discriminate.
    match goal with
    | C : Nat.ltb _ _ = false |- _ => apply Nat.ltb_ge in C; lia
    end.
Qed.

Lemma loop_after_skip l w outcome w' log before zone_id name type records after :
  loop_run cloudflare l w outcome w' log ->
  log = before ++ RecordsList zone_id name type (Resolved records) :: after ->
  skipped records -> clean after -> outcome = Return tt.
Proof.
  intros H. revert before after.
  induction H as [w | newRecord zone rest w w1 log1 o w2 log2 Hb Hl IH
                    | newRecord zone rest w e w1 log1 Hb]; intros before after E S C.
  - now destruct before.
  - apply log_split in E. destruct E as [[after1 [E ->]]|[before2 [-> E]]].
    + revert E. inversion Hb; subst; intros E; log_positions E;
        try (now apply (loop_clean _ _ _ _ _ Hl)).
      destruct S as [S|[c [S I]]]; [discriminate|].
      inversion S; subst. congruence.
    + now apply (IH _ _ E).
  - revert E. inversion Hb; subst; intros E; log_positions E;
      destruct S as [S|[c [S I]]]; subst; simpl in *; try lia; try discriminate.
    inversion S; subst. congruence.
Qed.

(** A listing that makes the loop skip its pair: the pairs before it
    were reconciled in full, the listing was made in the world they
    left, and the loop went on with the pairs after it, from the world
    the listing gave. *)
Lemma loop_skip l w outcome w' log before zone_id name type records after :
  loop_run cloudflare l w outcome w' log ->
  log = before ++ RecordsList zone_id name type (Resolved records) :: after ->
  skipped records ->
  exists done newRecord zone todo w0 w1,
    l = done ++ (newRecord, zone) :: todo
    /\ (zone_id, name, type) = pair_key (newRecord, zone)
    /\ loop_run cloudflare done w (Return tt) w0 before
    /\ records_list cloudflare zone_id name type w0 = (Resolved records, w1)
    /\ loop_run cloudflare todo w1 outcome w' after.
Proof.
  intros H. revert before after.
  induction H as [w | newRecord zone rest w w1 log1 o w2 log2 Hb Hl IH
                    | newRecord zone rest w e w1 log1 Hb]; intros before after E S.
  - now destruct before.
  - apply log_split in E. destruct E as [[after1 [E ->]]|[before2 [-> E]]].
    + revert E. inversion Hb; subst; intros E; log_positions E;
        try (exfalso; destruct S as [S|[c [S I']]];
             [discriminate S | inversion S; subst; congruence]);
        (eexists [], _, _, _, _, _;
         split; [reflexivity|]; split; [reflexivity|];
         split; [constructor|]; split; [eassumption | exact Hl]).
    + destruct (IH _ _ E S) as [done [nr [z [todo [w0 [w1' [-> [K [D [L T]]]]]]]]]].
      exists ((newRecord, zone) :: done), nr, z, todo, w0, w1'.
      repeat split; try assumption. now apply loop_next with (w1 := w1).
  - exfalso. revert E. inversion Hb; subst; intros E; log_positions E;
      destruct S as [S|[c [S I']]]; subst; simpl in *; try lia; try discriminate.
    inversion S; subst. congruence.
Qed.

(** A loop over pairs starts with the listing for the first pair. *)
Lemma loop_run_first newRecord zone rest w outcome w' log :
  loop_run cloudflare ((newRecord, zone) :: rest) w outcome w' log ->
  exists reply tail,
    log = RecordsList (Zone.id zone) (name newRecord) (type newRecord) reply :: tail.
Proof.
  intros H. inversion H as [ | ? ? ? ? ? ? ? ? ? Hb Hl | ? ? ? ? ? ? ? Hb]; subst;
    inversion Hb; subst; simpl; eauto.
Qed.

(** The loop over no pair makes no call and returns. *)
Lemma loop_run_nil w outcome w' log :
  loop_run cloudflare [] w outcome w' log ->
  log = [] /\ outcome = Return tt /\ w' = w.
Proof. intros H. now inversion H. Qed.

Lemma update_loop newRecords w outcome w' log before e after :
  update_run cloudflare newRecords w outcome w' log ->
  log = before ++ e :: after ->
  is_record_call e = true ->
  exists zones w2 loop_outcome before0,
    zones <> []
    /\ before = TokensVerify (Resolved "active") :: ZonesList (Resolved zones) :: before0
    /\ loop_run cloudflare (pairs newRecords zones) w2 loop_outcome w'
         (before0 ++ e :: after)
    /\ outcome = finish loop_outcome.
Proof.
  intros H E R. revert E.
  inversion H; subst; intros E;
    try (log_positions E; discriminate);
    destruct before as [|b0 [|b1 before0]]; simpl in E; inversion E; subst;
    try discriminate;
    match goal with
    | L : loop_run _ (pairs _ ?zones) ?w2 ?o _ _ |- _ =>
        exists zones, w2, o, before0
    end; auto.
Qed.

End LogFacts.

(** ** The parser *)

Lemma constructDNSRecords_returned request records :
  constructDNSRecords request = Return records ->
  exists ip hostnames,
    resolveIP request = Return ip
    /\ URLSearchParams.get "hostname" (searchParams request) = Some hostnames
    /\ records = map (record_of ip) (JS.split "," hostnames).
Proof.
  unfold constructDNSRecords.
  destruct (resolveIP request) as [ip|e]; [|discriminate].
  destruct (URLSearchParams.get "hostname" (searchParams request)) as [hostnames|];
    [|discriminate].
  intros H. inversion H. now exists ip, hostnames.
Qed.

Lemma in_pairs newRecord zone newRecords zones :
  In (newRecord, zone) (pairs newRecords zones) ->
  In newRecord newRecords /\ In zone zones.
Proof.
  unfold pairs. rewrite in_flat_map. intros [r [Hr Hp]].
  apply in_map_iff in Hp. destruct Hp as [z [E Hz]]. inversion E. now subst.
Qed.

Lemma pairs_no_zone newRecords : pairs newRecords [] = [].
Proof. unfold pairs. induction newRecords as [|r rs IH]; simpl; auto. Qed.

(** ** The handler: what the log of a request tells *)

Section Handler.

Variable World : Type.
Variable new_Cloudflare : ClientOptions -> Cloudflare World.

(** A listing or an update in the log of a request: the decoder and the
    parser returned, the token was active, some zone was listed, and the
    call is one of the loop over the records built for the request. *)
Lemma fetch_loop request w response w' log before e after :
  fetch new_Cloudflare request w = (response, w', log) ->
  log = before ++ e :: after ->
  is_record_call e = true ->
  exists clientOptions ip hostnames zones w2 loop_outcome before0,
    constructClientOptions request = Return clientOptions
    /\ resolveIP request = Return ip
    /\ URLSearchParams.get "hostname" (searchParams request) = Some hostnames
    /\ zones <> []
    /\ before = TokensVerify (Resolved "active") :: ZonesList (Resolved zones) :: before0
    /\ loop_run (new_Cloudflare clientOptions)
         (pairs (map (record_of ip) (JS.split "," hostnames)) zones)
         w2 loop_outcome w' (before0 ++ e :: after)
    /\ response = respond (finish loop_outcome).
Proof.
  intros F E R.
  destruct (fetch_cases _ _ _ _ _ _ _ F)
    as [[-> _]|[clientOptions [records [outcome [C [D [U ->]]]]]]].
  - now destruct before.
  - destruct (constructDNSRecords_returned _ _ D) as [ip [hostnames [I [Hn ->]]]].
    destruct (update_loop _ _ _ _ _ _ _ _ _ _ U E R)
      as [zones [w2 [loop_outcome [before0 [Z [-> [L ->]]]]]]].
    exists clientOptions, ip, hostnames, zones, w2, loop_outcome, before0.
    repeat split; assumption.
Qed.

(** C1: where a listing found exactly one record and that record has an
    id, the next call is the update of that record, and it sends the
    address the request asked for as [content], the [proxied] flag of the
    record found ([false] when it has none) and the [comment] of the
    record found. *)
Theorem update_passes_proxied_and_comment
    request w response w' log before zone_id name type current record_id after :
  fetch new_Cloudflare request w = (response, w', log) ->
  log = before ++ RecordsList zone_id name type (Resolved [current]) :: after ->
  id current = Some record_id ->
  exists params reply rest,
    after = RecordsUpdate record_id params reply :: rest
    /\ resolveIP request = Return (u_content params)
    /\ u_proxied params = match proxied current with Some p => p | None => false end
    /\ u_comment params = comment current.
Proof.
  intros F E I.
  destruct (fetch_loop _ _ _ _ _ _ _ _ F E eq_refl)
    as [clientOptions [ip [hostnames [zones [w2 [o [before0 [_ [R [_ [_ [_ [L _]]]]]]]]]]]]].
  destruct (loop_listing _ _ _ _ _ _ _ _ _ _ _ _ _ L eq_refl)
    as [newRecord [zone [Hin [_ [_ [_ A]]]]]].
  unfold after_listing in A. rewrite I in A.
  destruct A as [reply [rest ->]].
  exists (update_params newRecord zone current), reply, rest.
  repeat split.
  apply in_pairs in Hin. destruct Hin as [Hin _].
  apply in_map_iff in Hin. destruct Hin as [hostname [<- _]].
  exact R.
Qed.

(** C3: where a listing found more than one record, the response is 400
    with the conflict message and the listing is the last call of the
    request: the pairs after its pair are not visited.  The pairs
    before it were reconciled in full, the listing was made in the world
    they left, updates included, and the request ends in the world the
    listing gave: nothing is taken back. *)
Theorem conflict_aborts_request
    request w response w' log before zone_id name type records after :
  fetch new_Cloudflare request w = (response, w', log) ->
  log = before ++ RecordsList zone_id name type (Resolved records) :: after ->
  1 < length records ->
  response = {| body := conflict_message; status := 400 |}
  /\ after = []
  /\ exists clientOptions newRecords zones done newRecord zone todo w2 w0 before0,
       constructClientOptions request = Return clientOptions
       /\ constructDNSRecords request = Return newRecords
       /\ before = TokensVerify (Resolved "active") :: ZonesList (Resolved zones)
                     :: before0
       /\ pairs newRecords zones = done ++ (newRecord, zone) :: todo
       /\ for_of done (fun p => reconcile (new_Cloudflare clientOptions) (fst p) (snd p)) w2
          = (Return tt, w0, before0)
       /\ records_list (new_Cloudflare clientOptions) zone_id name type w0
          = (Resolved records, w').
Proof.
  intros F E N.
  destruct (fetch_loop _ _ _ _ _ _ _ _ F E eq_refl)
    as [clientOptions [ip [hostnames [zones [w2 [o [before0 [C [R [Hn [_ [B [L ->]]]]]]]]]]]]].
  destruct (loop_conflict _ _ _ _ _ _ _ _ _ _ _ _ _ L eq_refl N)
    as [done [newRecord [zone [todo [w0 [P [D [Li [-> ->]]]]]]]]].
  split; [reflexivity|]. split; [reflexivity|].
  exists clientOptions, (map (record_of ip) (JS.split "," hostnames)), zones,
    done, newRecord, zone, todo, w2, w0, before0.
  repeat split; try assumption.
  - unfold constructDNSRecords. now rewrite R, Hn.
  - now apply loop_complete.
Qed.

(** A listing that makes the loop skip its pair, in the log of a
    request: the pairs before that pair were reconciled in full, and
    what follows the listing in the log is the loop over the pairs
    after it, all of them, run from the world the listing gave; the
    response is what that loop gives. *)
Lemma fetch_skip
    request w response w' log before zone_id name type records after :
  fetch new_Cloudflare request w = (response, w', log) ->
  log = before ++ RecordsList zone_id name type (Resolved records) :: after ->
  skipped records ->
  exists clientOptions newRecords zones done newRecord zone todo w2 w0 w1 before0 outcome,
    constructClientOptions request = Return clientOptions
    /\ constructDNSRecords request = Return newRecords
    /\ before = TokensVerify (Resolved "active") :: ZonesList (Resolved zones)
                  :: before0
    /\ pairs newRecords zones = done ++ (newRecord, zone) :: todo
    /\ (zone_id, name, type) = pair_key (newRecord, zone)
    /\ for_of done (fun p => reconcile (new_Cloudflare clientOptions) (fst p) (snd p)) w2
       = (Return tt, w0, before0)
    /\ records_list (new_Cloudflare clientOptions) zone_id name type w0
       = (Resolved records, w1)
    /\ for_of todo (fun p => reconcile (new_Cloudflare clientOptions) (fst p) (snd p)) w1
       = (outcome, w', after)
    /\ response = respond (finish outcome)
    /\ match todo with
       | [] => after = [] /\ response = ok_response
       | next :: _ =>
           exists reply rest,
             after = RecordsList (Zone.id (snd next)) (DNS.name (fst next))
                       (DNS.type (fst next)) reply :: rest
       end.
Proof.
  intros F E S.
  destruct (fetch_loop _ _ _ _ _ _ _ _ F E eq_refl)
    as [clientOptions [ip [hostnames [zones [w2 [o [before0 [C [R [Hn [_ [B [L ->]]]]]]]]]]]]].
  destruct (loop_skip _ _ _ _ _ _ _ _ _ _ _ _ _ L eq_refl S)
    as [done [newRecord [zone [todo [w0 [w1 [P [K [D [Li T]]]]]]]]]].
  exists clientOptions, (map (record_of ip) (JS.split "," hostnames)), zones,
    done, newRecord, zone, todo, w2, w0, w1, before0, o.
  split; [exact C|].
  split; [unfold constructDNSRecords; now rewrite R, Hn|].
  split; [exact B|]. split; [exact P|]. split; [exact K|].
  split; [now apply loop_complete|]. split; [exact Li|].
  split; [now apply loop_complete|]. split; [reflexivity|].
  destruct todo as [|[nextRecord nextZone] todo].
  - apply loop_run_nil in T. destruct T as [-> [-> _]]. now split.
  - apply loop_run_first in T. exact T.
Qed.

(** C4: where a listing found no record, no update follows it and the
    loop continues: the log ends there with the response 200 OK when the
    pair was the last one, and goes on with the listing for the next
    pair otherwise; what follows the listing is the loop over all the
    pairs after it, run from the world the listing gave, and the
    response is what that loop gives.  When every call of the request was
    answered and no listing found more than one record, the response is
    200 OK. *)
Theorem missing_record_is_skipped
    request w response w' log before zone_id name type after :
  fetch new_Cloudflare request w = (response, w', log) ->
  log = before ++ RecordsList zone_id name type (Resolved []) :: after ->
  ((after = [] /\ response = ok_response) \/ starts_with_listing after)
  /\ (clean log -> response = ok_response)
  /\
  exists clientOptions newRecords zones done newRecord zone todo w2 w0 w1 before0 outcome,
    constructClientOptions request = Return clientOptions
    /\ constructDNSRecords request = Return newRecords
    /\ before = TokensVerify (Resolved "active") :: ZonesList (Resolved zones)
                  :: before0
    /\ pairs newRecords zones = done ++ (newRecord, zone) :: todo
    /\ (zone_id, name, type) = pair_key (newRecord, zone)
    /\ for_of done (fun p => reconcile (new_Cloudflare clientOptions) (fst p) (snd p)) w2
       = (Return tt, w0, before0)
    /\ records_list (new_Cloudflare clientOptions) zone_id name type w0
       = (Resolved [], w1)
    /\ for_of todo (fun p => reconcile (new_Cloudflare clientOptions) (fst p) (snd p)) w1
       = (outcome, w', after)
    /\ response = respond (finish outcome)
    /\ match todo with
       | [] => after = [] /\ response = ok_response
       | next :: _ =>
           exists reply rest,
             after = RecordsList (Zone.id (snd next)) (DNS.name (fst next))
                       (DNS.type (fst next)) reply :: rest
       end.
Proof.
  intros F E.
  split; [|split].
  - destruct (fetch_loop _ _ _ _ _ _ _ _ F E eq_refl)
      as [clientOptions [ip [hostnames [zones [w2 [o [before0 [_ [_ [_ [_ [B [L ->]]]]]]]]]]]]].
    destruct (loop_listing _ _ _ _ _ _ _ _ _ _ _ _ _ L eq_refl)
      as [newRecord [zone [_ [_ [_ [_ A]]]]]].
    destruct A as [[-> ->]|A]; [left | right]; auto.
  - destruct (fetch_loop _ _ _ _ _ _ _ _ F E eq_refl)
      as [clientOptions [ip [hostnames [zones [w2 [o [before0 [_ [_ [_ [_ [B [L ->]]]]]]]]]]]]].
    intros C. subst log before. unfold clean in C.
    inversion_clear C as [|? ? _ C1]. inversion_clear C1 as [|? ? _ C2].
    now rewrite (loop_clean _ _ _ _ _ _ _ L C2).
  - apply (fetch_skip _ _ _ _ _ _ _ _ _ _ _ F E). now left.
Qed.

(** C10: where a listing found one record that has no id, the pair is
    skipped as when nothing is found: no update follows and the loop
    continues.  The log ends there with the response 200 OK when the
    pair was the last one, and goes on with the listing for the next
    pair otherwise; what follows the listing is the loop over all the
    pairs after it, run from the world the listing gave, and the
    response is what that loop gives, the same as after a listing that
    found nothing.  When the calls after it were all answered and none
    found more than one record, the response is 200 OK. *)
Theorem record_without_id_is_skipped
    request w response w' log before zone_id name type current after :
  fetch new_Cloudflare request w = (response, w', log) ->
  log = before ++ RecordsList zone_id name type (Resolved [current]) :: after ->
  id current = None ->
  ((after = [] /\ response = ok_response) \/ starts_with_listing after)
  /\ (clean after -> response = ok_response)
  /\
  exists clientOptions newRecords zones done newRecord zone todo w2 w0 w1 before0 outcome,
    constructClientOptions request = Return clientOptions
    /\ constructDNSRecords request = Return newRecords
    /\ before = TokensVerify (Resolved "active") :: ZonesList (Resolved zones)
                  :: before0
    /\ pairs newRecords zones = done ++ (newRecord, zone) :: todo
    /\ (zone_id, name, type) = pair_key (newRecord, zone)
    /\ for_of done (fun p => reconcile (new_Cloudflare clientOptions) (fst p) (snd p)) w2
       = (Return tt, w0, before0)
    /\ records_list (new_Cloudflare clientOptions) zone_id name type w0
       = (Resolved [current], w1)
    /\ for_of todo (fun p => reconcile (new_Cloudflare clientOptions) (fst p) (snd p)) w1
       = (outcome, w', after)
    /\ response = respond (finish outcome)
    /\ match todo with
       | [] => after = [] /\ response = ok_response
       | next :: _ =>
           exists reply rest,
             after = RecordsList (Zone.id (snd next)) (DNS.name (fst next))
                       (DNS.type (fst next)) reply :: rest
       end.
Proof.
  intros F E I.
  split; [|split].
  - destruct (fetch_loop _ _ _ _ _ _ _ _ F E eq_refl)
      as [clientOptions [ip [hostnames [zones [w2 [o [before0 [_ [_ [_ [_ [_ [L ->]]]]]]]]]]]]].
    destruct (loop_listing _ _ _ _ _ _ _ _ _ _ _ _ _ L eq_refl)
      as [newRecord [zone [_ [_ [_ [_ A]]]]]].
    unfold after_listing in A. rewrite I in A.
    destruct A as [[-> ->]|A]; [left | right]; auto.
  - destruct (fetch_loop _ _ _ _ _ _ _ _ F E eq_refl)
      as [clientOptions [ip [hostnames [zones [w2 [o [before0 [_ [_ [_ [_ [_ [L ->]]]]]]]]]]]]].
    intros C.
    rewrite (loop_after_skip _ _ _ _ _ _ _ _ _ _ _ _ _ L eq_refl); auto.
    right. now exists current.
  - apply (fetch_skip _ _ _ _ _ _ _ _ _ _ _ F E). right. now exists current.
Qed.

End Handler.

(** ** The reconciler: what an update call sends *)

Section Reconciler.

Variable World : Type.
Variable new_Cloudflare : ClientOptions -> Cloudflare World.

(** C2, as the code has it: every update call comes right after the
    listing for a record of the request in a listed zone, a listing that
    found one record; the call takes the id of the record found, and
    sends as [name] and [type] those of the record of the request (the
    ones the listing was asked for) and as [zone_id] the id of the
    zone. *)
Theorem update_sends_requested_name_and_type
    clientOptions newRecords w outcome w' log before record_id params reply after :
  update new_Cloudflare clientOptions newRecords w = (outcome, w', log) ->
  log = before ++ RecordsUpdate record_id params reply :: after ->
  exists newRecord zones zone current before0,
    In newRecord newRecords /\ In zone zones
    /\ before = TokensVerify (Resolved "active") :: ZonesList (Resolved zones)
                  :: before0
                  ++ [RecordsList (Zone.id zone) (name newRecord) (type newRecord)
                        (Resolved [current])]
    /\ id current = Some record_id
    /\ u_name params = name newRecord
    /\ u_type params = type newRecord
    /\ u_zone_id params = Zone.id zone.
Proof.
  intros U E. apply update_sound in U.
  destruct (update_loop _ _ _ _ _ _ _ _ _ _ U E eq_refl)
    as [zones [w2 [o [before1 [_ [-> [L _]]]]]]].
  destruct (loop_update _ _ _ _ _ _ _ _ _ _ _ _ L eq_refl)
    as [newRecord [zone [current [before0 [Hin [-> [I ->]]]]]]].
  apply in_pairs in Hin. destruct Hin as [Hr Hz].
  exists newRecord, zones, zone, current, before0. repeat split; assumption.
Qed.

End Reconciler.

(** ** The credential decoder *)

(** C5: the header made of a scheme, a space and the Base64 encoding of
    [email:token] decodes to that email and that token, when the email
    has no colon and the payload no control character; the token may
    have colons. *)
Theorem decode_recovers_credentials (request : Request) (scheme email token : string) :
  JS.indexOf " " scheme = None ->
  JS.indexOf ":" email = None ->
  JS.test_control (email ++ ":" ++ token) = false ->
  Headers.get "Authorization" (headers request)
    = Some (scheme ++ " " ++ Base64.btoa (email ++ ":" ++ token))%string ->
  constructClientOptions request = Return {| apiEmail := email; apiToken := token |}.
Proof.
  intros Hs He Hc Hh. unfold constructClientOptions. rewrite Hh.
  assert (F : JS.falsy (scheme ++ " " ++ Base64.btoa (email ++ ":" ++ token)) = false)
    by now destruct scheme.
  rewrite F.
  change (scheme ++ " " ++ Base64.btoa (email ++ ":" ++ token))%string
    with (scheme ++ String " " (Base64.btoa (email ++ ":" ++ token)))%string.
  rewrite (split_append " " _ _ Hs).
  rewrite (split_without " " _ (Base64Facts.btoa_no_space _)).
  cbn [nth_error JS.to_string].
  rewrite Base64Facts.atob_btoa, Hc.
  change (email ++ ":" ++ token)%string with (email ++ String ":" token)%string.
  rewrite (indexOf_append ":" _ _ He).
  now rewrite substring_prefix, substring_suffix.
Qed.

Section Decoder.

Variable World : Type.
Variable new_Cloudflare : ClientOptions -> Cloudflare World.

(** X1: a request with no [Authorization] header is answered 401, and
    the client is not called. *)
Theorem missing_authorization_is_401 request w :
  Headers.get "Authorization" (headers request) = None ->
  fetch new_Cloudflare request w
  = ({| body := "API token missing."; status := 401 |}, w, []).
Proof.
  intros H. unfold fetch, bind, lift, constructClientOptions. now rewrite H.
Qed.

(** C6, where the code departs from it: a header whose payload [atob]
    refuses makes the handler answer 500, not 401. *)
Theorem undecodable_authorization_is_500 request w authorization :
  Headers.get "Authorization" (headers request) = Some authorization ->
  JS.falsy authorization = false ->
  Base64.atob (JS.to_string (nth_error (JS.split " " authorization) 1)) = None ->
  fetch new_Cloudflare request w
  = ({| body := "Internal Server Error"; status := 500 |}, w, []).
Proof.
  intros H F D. unfold fetch, bind, lift, constructClientOptions.
  now rewrite H, F, D.
Qed.

End Decoder.

(** ** The request parser *)

(** C7: with a resolved address and a [hostname] parameter the parser
    returns one record for each piece of the parameter between commas,
    in order and as written (joining the names with commas gives the
    parameter back), each with the address as [content], type [A] when
    the address has a dot and [AAAA] otherwise, and [ttl] 1. *)
Theorem records_follow_hostnames (request : Request) (ip hostnames : string) :
  resolveIP request = Return ip ->
  URLSearchParams.get "hostname" (searchParams request) = Some hostnames ->
  exists records,
    constructDNSRecords request = Return records
    /\ map name records = JS.split "," hostnames
    /\ JS.join "," (map name records) = hostnames
    /\ Forall (fun hostname => JS.indexOf "," hostname = None) (map name records)
    /\ Forall (fun record =>
                 content record = ip
                 /\ type record = (if JS.includes "." ip then A else AAAA)
                 /\ ttl record = 1) records.
Proof.
  intros R H. exists (map (record_of ip) (JS.split "," hostnames)).
  assert (N : map name (map (record_of ip) (JS.split "," hostnames))
              = JS.split "," hostnames).
  { rewrite map_map. apply map_id. }
  unfold constructDNSRecords. rewrite R, H, N.
  repeat split.
  - apply join_split.
  - apply split_pieces.
  - apply Forall_map, Forall_forall. now intros hostname _.
Qed.

(** C8, as the code has it: an [ip] parameter that is not empty is
    used; when [ip] is absent or empty the parser falls back to [myip];
    and when [ip] is absent or empty and [myip] is absent the parser
    throws 422. *)
Theorem ip_falls_back_to_myip (request : Request) :
  let ip := URLSearchParams.get "ip" (searchParams request) in
  let myip := URLSearchParams.get "myip" (searchParams request) in
  (forall v, ip = Some v -> v <> "" -> v <> "auto" -> resolveIP request = Return v)
  /\ (ip = None \/ ip = Some "" ->
      forall v, myip = Some v -> v <> "" -> v <> "auto" ->
      resolveIP request = Return v)
  /\ (ip = None \/ ip = Some "" -> myip = None ->
      constructDNSRecords request = Throw (HttpError 422 ip_required)).
Proof.
  cbv zeta. unfold constructDNSRecords, resolveIP. repeat split.
  - intros v -> N A. destruct v as [|c v]; [contradiction|].
    simpl JS.or_else. cbv iota beta.
    now destruct (String.eqb_spec (String c v) "auto").
  - intros [-> | ->] v -> N A;
      (destruct v as [|c v]; [contradiction|]);
      simpl JS.or_else; cbv iota beta;
      now destruct (String.eqb_spec (String c v) "auto").
  - now intros [-> | ->] ->.
Qed.

(** C9: when the address asked for is [auto], the parser takes the value
    of the [CF-Connecting-IP] header in its place, and throws 500 when
    the request has no such header. *)
Theorem auto_takes_connecting_ip (request : Request) :
  JS.or_else (URLSearchParams.get "ip" (searchParams request))
             (URLSearchParams.get "myip" (searchParams request)) = Some "auto" ->
  match Headers.get "CF-Connecting-IP" (headers request) with
  | Some client =>
      resolveIP request = Return client
      /\ forall hostnames,
           URLSearchParams.get "hostname" (searchParams request) = Some hostnames ->
           constructDNSRecords request
           = Return (map (record_of client) (JS.split "," hostnames))
  | None =>
      constructDNSRecords request
      = Throw (HttpError 500
          "Request asked for ip=auto but client IP address cannot be determined.")
  end.
Proof.
  intros H. unfold constructDNSRecords, resolveIP. rewrite H. simpl String.eqb.
  destruct (Headers.get "CF-Connecting-IP" (headers request)) as [client|].
  - split; [reflexivity|]. now intros hostnames ->.
  - reflexivity.
Qed.

(** ** The properties on the sample account *)

Import Sample.

(** The scenario of the specification: one zone, one record of the name,
    exactly one update with the new address, 200 OK. *)
Example fetch_home :
  fetch Memory.client (request_for "home.example.com") account
  = (ok_response, account_after "home.example.com",
     [verified; zones_listed; listed "home.example.com" [home];
      updated "home.example.com"]).
Proof. vm_compute. reflexivity. Qed.

Lemma update_passes_proxied_and_comment_witness :
  exists params reply rest,
    [updated "home.example.com"] = RecordsUpdate "r1" params reply :: rest
    /\ resolveIP (request_for "home.example.com") = Return (u_content params)
    /\ u_proxied params = match proxied home with Some p => p | None => false end
    /\ u_comment params = comment home.
Proof.
  apply (update_passes_proxied_and_comment Memory.Account Memory.client
           (request_for "home.example.com") account ok_response
           (account_after "home.example.com")
           [verified; zones_listed; listed "home.example.com" [home];
            updated "home.example.com"]
           [verified; zones_listed] "z1" "home.example.com" A home "r1"
           [updated "home.example.com"]).
  - exact fetch_home.
  - reflexivity.
  - reflexivity.
Defined.

(** C2, as the specification states it, fails: the client lists names
    without case, the request writes the name in capitals, and the
    update sends the name of the request, not the name of the record
    that was found. *)
Lemma update_sends_name_of_request_not_of_record :
  fetch Memory.client (request_for "HOME.example.com") account
  = (ok_response, account_after "HOME.example.com",
     [verified; zones_listed; listed "HOME.example.com" [home];
      updated "HOME.example.com"])
  /\ u_name (sent "HOME.example.com") = "HOME.example.com"
  /\ name home = "home.example.com"
  /\ u_name (sent "HOME.example.com") <> name home.
Proof.
  split; [vm_compute; reflexivity|].
  split; [reflexivity|]. split; [reflexivity|]. discriminate.
Qed.

Lemma update_sends_requested_name_and_type_witness :
  exists newRecord zones zone current before0,
    In newRecord [record_of "198.51.100.9" "HOME.example.com"] /\ In zone zones
    /\ [verified; zones_listed; listed "HOME.example.com" [home]]
       = TokensVerify (Resolved "active") :: ZonesList (Resolved zones)
           :: before0
           ++ [RecordsList (Zone.id zone) (name newRecord) (type newRecord)
                 (Resolved [current])]
    /\ id current = Some "r1"
    /\ u_name (sent "HOME.example.com") = name newRecord
    /\ u_type (sent "HOME.example.com") = type newRecord
    /\ u_zone_id (sent "HOME.example.com") = Zone.id zone.
Proof.
  apply (update_sends_requested_name_and_type Memory.Account Memory.client
           credentials [record_of "198.51.100.9" "HOME.example.com"] account
           (Return ok_response) (account_after "HOME.example.com")
           [verified; zones_listed; listed "HOME.example.com" [home];
            updated "HOME.example.com"]
           [verified; zones_listed; listed "HOME.example.com" [home]]
           "r1" (sent "HOME.example.com") (Resolved tt) []).
  - vm_compute. reflexivity.
  - reflexivity.
Defined.

Example fetch_conflict :
  fetch Memory.client
    (request_for "home.example.com,dup.example.com,home.example.com") account
  = ({| body := conflict_message; status := 400 |}, account_after "home.example.com",
     [verified; zones_listed; listed "home.example.com" [home];
      updated "home.example.com";
      listed "dup.example.com" [twin "r2"; twin "r3"]]).
Proof. vm_compute. reflexivity. Qed.

Lemma conflict_aborts_request_witness :
  {| body := conflict_message; status := 400 |}
  = {| body := conflict_message; status := 400 |}
  /\ @nil Event = []
  /\ exists clientOptions newRecords zones done newRecord zone todo w2 w0 before0,
       constructClientOptions
         (request_for "home.example.com,dup.example.com,home.example.com")
       = Return clientOptions
       /\ constructDNSRecords
            (request_for "home.example.com,dup.example.com,home.example.com")
          = Return newRecords
       /\ [verified; zones_listed; listed "home.example.com" [home];
           updated "home.example.com"]
          = TokensVerify (Resolved "active") :: ZonesList (Resolved zones) :: before0
       /\ pairs newRecords zones = done ++ (newRecord, zone) :: todo
       /\ for_of done (fun p => reconcile (Memory.client clientOptions) (fst p) (snd p)) w2
          = (Return tt, w0, before0)
       /\ records_list (Memory.client clientOptions) "z1" "dup.example.com" A w0
          = (Resolved [twin "r2"; twin "r3"], account_after "home.example.com").
Proof.
  apply (conflict_aborts_request Memory.Account Memory.client
           (request_for "home.example.com,dup.example.com,home.example.com") account
           {| body := conflict_message; status := 400 |}
           (account_after "home.example.com")
           [verified; zones_listed; listed "home.example.com" [home];
            updated "home.example.com";
            listed "dup.example.com" [twin "r2"; twin "r3"]]
           [verified; zones_listed; listed "home.example.com" [home];
            updated "home.example.com"]
           "z1" "dup.example.com" A [twin "r2"; twin "r3"] []).
  - exact fetch_conflict.
  - reflexivity.
  - simpl. lia.
Defined.

Example fetch_missing :
  fetch Memory.client (request_for "none.example.com,home.example.com") account
  = (ok_response, account_after "home.example.com",
     [verified; zones_listed; listed "none.example.com" [];
      listed "home.example.com" [home]; updated "home.example.com"]).
Proof. vm_compute. reflexivity. Qed.

Example fetch_without_id :
  fetch Memory.client (request_for "draft.example.com,home.example.com") account
  = (ok_response, account_after "home.example.com",
     [verified; zones_listed; listed "draft.example.com" [draft];
      listed "home.example.com" [home]; updated "home.example.com"]).
Proof. vm_compute. reflexivity. Qed.

Lemma clean_sample_log hostname found :
  length found <= 1 ->
  clean [verified; zones_listed; listed hostname found;
         listed "home.example.com" [home]; updated "home.example.com"].
Proof.
  intros H. unfold clean. repeat constructor.
  simpl. apply Nat.ltb_ge. exact H.
Qed.

Lemma missing_record_is_skipped_witness :
  ((  [listed "home.example.com" [home]; updated "home.example.com"] = []
      /\ ok_response = ok_response)
   \/ starts_with_listing
        [listed "home.example.com" [home]; updated "home.example.com"])
  /\ ok_response = ok_response
  /\ exists clientOptions newRecords zones done newRecord zone todo w2 w0 w1 before0
       outcome,
       constructClientOptions (request_for "none.example.com,home.example.com")
       = Return clientOptions
       /\ constructDNSRecords (request_for "none.example.com,home.example.com")
          = Return newRecords
       /\ [verified; zones_listed]
          = TokensVerify (Resolved "active") :: ZonesList (Resolved zones) :: before0
       /\ pairs newRecords zones = done ++ (newRecord, zone) :: todo
       /\ ("z1", "none.example.com", A) = pair_key (newRecord, zone)
       /\ for_of done (fun p => reconcile (Memory.client clientOptions) (fst p) (snd p)) w2
          = (Return tt, w0, before0)
       /\ records_list (Memory.client clientOptions) "z1" "none.example.com" A w0
          = (Resolved [], w1)
       /\ for_of todo (fun p => reconcile (Memory.client clientOptions) (fst p) (snd p)) w1
          = (outcome, account_after "home.example.com",
             [listed "home.example.com" [home]; updated "home.example.com"])
       /\ ok_response = respond (finish outcome)
       /\ match todo with
          | [] =>
              [listed "home.example.com" [home]; updated "home.example.com"] = []
              /\ ok_response = ok_response
          | next :: _ =>
              exists reply rest,
                [listed "home.example.com" [home]; updated "home.example.com"]
                = RecordsList (Zone.id (snd next)) (DNS.name (fst next))
                    (DNS.type (fst next)) reply :: rest
          end.
Proof.
  destruct (missing_record_is_skipped Memory.Account Memory.client
              (request_for "none.example.com,home.example.com") account
              ok_response (account_after "home.example.com")
              [verified; zones_listed; listed "none.example.com" [];
               listed "home.example.com" [home]; updated "home.example.com"]
              [verified; zones_listed] "z1" "none.example.com" A
              [listed "home.example.com" [home]; updated "home.example.com"])
    as [Next [Ok Rest]].
  - exact fetch_missing.
  - reflexivity.
  - split; [exact Next|]. split; [|exact Rest].
    apply Ok. apply clean_sample_log. simpl. lia.
Defined.

Lemma record_without_id_is_skipped_witness :
  ((  [listed "home.example.com" [home]; updated "home.example.com"] = []
      /\ ok_response = ok_response)
   \/ starts_with_listing
        [listed "home.example.com" [home]; updated "home.example.com"])
  /\ ok_response = ok_response
  /\ exists clientOptions newRecords zones done newRecord zone todo w2 w0 w1 before0
       outcome,
       constructClientOptions (request_for "draft.example.com,home.example.com")
       = Return clientOptions
       /\ constructDNSRecords (request_for "draft.example.com,home.example.com")
          = Return newRecords
       /\ [verified; zones_listed]
          = TokensVerify (Resolved "active") :: ZonesList (Resolved zones) :: before0
       /\ pairs newRecords zones = done ++ (newRecord, zone) :: todo
       /\ ("z1", "draft.example.com", A) = pair_key (newRecord, zone)
       /\ for_of done (fun p => reconcile (Memory.client clientOptions) (fst p) (snd p)) w2
          = (Return tt, w0, before0)
       /\ records_list (Memory.client clientOptions) "z1" "draft.example.com" A w0
          = (Resolved [draft], w1)
       /\ for_of todo (fun p => reconcile (Memory.client clientOptions) (fst p) (snd p)) w1
          = (outcome, account_after "home.example.com",
             [listed "home.example.com" [home]; updated "home.example.com"])
       /\ ok_response = respond (finish outcome)
       /\ match todo with
          | [] =>
              [listed "home.example.com" [home]; updated "home.example.com"] = []
              /\ ok_response = ok_response
          | next :: _ =>
              exists reply rest,
                [listed "home.example.com" [home]; updated "home.example.com"]
                = RecordsList (Zone.id (snd next)) (DNS.name (fst next))
                    (DNS.type (fst next)) reply :: rest
          end.
Proof.
  destruct (record_without_id_is_skipped Memory.Account Memory.client
              (request_for "draft.example.com,home.example.com") account
              ok_response (account_after "home.example.com")
              [verified; zones_listed; listed "draft.example.com" [draft];
               listed "home.example.com" [home]; updated "home.example.com"]
              [verified; zones_listed] "z1" "draft.example.com" A draft
              [listed "home.example.com" [home]; updated "home.example.com"])
    as [Next [Ok Rest]].
  - exact fetch_without_id.
  - reflexivity.
  - reflexivity.
  - split; [exact Next|]. split; [|exact Rest].
    apply Ok. unfold clean. repeat constructor.
Defined.

Lemma decode_recovers_credentials_witness :
  constructClientOptions (request_for "home.example.com") = Return credentials.
Proof.
  apply (decode_recovers_credentials (request_for "home.example.com")
           "Basic" "user@example.com" "tok:en");
    vm_compute; reflexivity.
Defined.

(** A header with no payload, and a header whose payload is not Base64:
    the response is 500. *)
Lemma undecodable_authorization_is_500_witness :
  fetch Memory.client
    {| headers := [("Authorization", "Basic")]; searchParams := [] |} account
  = ({| body := "Internal Server Error"; status := 500 |}, account, [])
  /\ fetch Memory.client
       {| headers := [("Authorization", "Basic user:token")]; searchParams := [] |}
       account
     = ({| body := "Internal Server Error"; status := 500 |}, account, []).
Proof.
  split.
  - apply (undecodable_authorization_is_500 Memory.Account Memory.client _ account
             "Basic"); vm_compute; reflexivity.
  - apply (undecodable_authorization_is_500 Memory.Account Memory.client _ account
             "Basic user:token"); vm_compute; reflexivity.
Defined.

Lemma records_follow_hostnames_witness :
  exists records,
    constructDNSRecords (request_for "a.example.com,,b.example.com ,a.example.com")
    = Return records
    /\ map name records = ["a.example.com"; ""; "b.example.com "; "a.example.com"]
    /\ JS.join "," (map name records) = "a.example.com,,b.example.com ,a.example.com"
    /\ Forall (fun hostname => JS.indexOf "," hostname = None) (map name records)
    /\ Forall (fun record =>
                 content record = "198.51.100.9"
                 /\ type record = A
                 /\ ttl record = 1) records.
Proof.
  apply (records_follow_hostnames
           (request_for "a.example.com,,b.example.com ,a.example.com")
           "198.51.100.9" "a.example.com,,b.example.com ,a.example.com");
    reflexivity.
Defined.

(** C8, as the specification states it, fails: [ip] is present, and
    empty, and the parser falls back to [myip]. *)
Lemma empty_ip_falls_back_to_myip :
  URLSearchParams.get "ip"
    [("ip", ""); ("myip", "203.0.113.5"); ("hostname", "home.example.com")]
  = Some ""
  /\ constructDNSRecords
       (request [("ip", ""); ("myip", "203.0.113.5"); ("hostname", "home.example.com")])
     = Return [record_of "203.0.113.5" "home.example.com"].
Proof. split; reflexivity. Qed.

Lemma ip_falls_back_to_myip_witness :
  resolveIP (request [("ip", "198.51.100.9"); ("myip", "203.0.113.5")])
  = Return "198.51.100.9"
  /\ resolveIP (request [("myip", "203.0.113.5")]) = Return "203.0.113.5"
  /\ resolveIP (request [("ip", ""); ("myip", "203.0.113.5")]) = Return "203.0.113.5"
  /\ constructDNSRecords (request [("hostname", "home.example.com")])
     = Throw (HttpError 422 ip_required)
  /\ constructDNSRecords (request [("ip", ""); ("hostname", "home.example.com")])
     = Throw (HttpError 422 ip_required).
Proof.
  split; [|split; [|split; [|split]]].
  - apply (proj1 (ip_falls_back_to_myip
                    (request [("ip", "198.51.100.9"); ("myip", "203.0.113.5")])));
      [reflexivity | discriminate | discriminate].
  - apply (proj1 (proj2 (ip_falls_back_to_myip (request [("myip", "203.0.113.5")]))));
      [now left | reflexivity | discriminate | discriminate].
  - apply (proj1 (proj2 (ip_falls_back_to_myip
                           (request [("ip", ""); ("myip", "203.0.113.5")]))));
      [now right | reflexivity | discriminate | discriminate].
  - apply (proj2 (proj2 (ip_falls_back_to_myip
                           (request [("hostname", "home.example.com")]))));
      [now left | reflexivity].
  - apply (proj2 (proj2 (ip_falls_back_to_myip
                           (request [("ip", ""); ("hostname", "home.example.com")]))));
      [now right | reflexivity].
Defined.

Lemma auto_takes_connecting_ip_witness :
  (resolveIP (request_auto [("CF-Connecting-IP", "203.0.113.5")]) = Return "203.0.113.5"
   /\ forall hostnames,
        URLSearchParams.get "hostname"
          (searchParams (request_auto [("CF-Connecting-IP", "203.0.113.5")]))
        = Some hostnames ->
        constructDNSRecords (request_auto [("CF-Connecting-IP", "203.0.113.5")])
        = Return (map (record_of "203.0.113.5") (JS.split "," hostnames)))
  /\ constructDNSRecords (request_auto [])
     = Throw (HttpError 500
         "Request asked for ip=auto but client IP address cannot be determined.").
Proof.
  split.
  - exact (auto_takes_connecting_ip
             (request_auto [("CF-Connecting-IP", "203.0.113.5")]) eq_refl).
  - exact (auto_takes_connecting_ip (request_auto []) eq_refl).
Defined.

(** ** Further properties of the handler and the reconciler *)

Section Further.

Variable World : Type.
Variable new_Cloudflare : ClientOptions -> Cloudflare World.

(** X2: a payload that decodes to a string with no colon, or with a
    control character, is answered 401, and the client is not called. *)
Theorem invalid_credentials_are_refused request w authorization decoded :
  Headers.get "Authorization" (headers request) = Some authorization ->
  JS.falsy authorization = false ->
  Base64.atob (JS.to_string (nth_error (JS.split " " authorization) 1)) = Some decoded ->
  JS.indexOf ":" decoded = None \/ JS.test_control decoded = true ->
  fetch new_Cloudflare request w
  = ({| body := "Invalid API key or token."; status := 401 |}, w, []).
Proof.
  intros H F D B. unfold fetch, bind, lift, constructClientOptions.
  rewrite H, F, D. destruct B as [-> | ->]; [reflexivity|].
  now destruct (JS.indexOf ":" decoded).
Qed.

(** X3: when the decoder or the parser throws, the handler answers with
    that error and the client is not called. *)
Theorem no_call_before_parsing request w :
  (forall e, constructClientOptions request = Throw e ->
             fetch new_Cloudflare request w = (respond (Throw e), w, []))
  /\ (forall clientOptions e,
        constructClientOptions request = Return clientOptions ->
        constructDNSRecords request = Throw e ->
        fetch new_Cloudflare request w = (respond (Throw e), w, [])).
Proof.
  unfold fetch, bind, lift. split.
  - now intros e ->.
  - now intros clientOptions e -> ->.
Qed.

(** X4: a token that is not active: 401, the message names the status,
    and no further call is made. *)
Theorem inactive_token_is_refused clientOptions newRecords w tokenStatus w1 :
  tokens_verify (new_Cloudflare clientOptions) w = (Resolved tokenStatus, w1) ->
  tokenStatus <> "active" ->
  update new_Cloudflare clientOptions newRecords w
  = (Throw (HttpError 401 ("This API Token is " ++ tokenStatus)), w1,
     [TokensVerify (Resolved tokenStatus)]).
Proof.
  intros V N. unfold update, bind, await. rewrite V.
  now destruct (String.eqb_spec tokenStatus "active").
Qed.

(** X5: an active token that sees no zone: 400, and no record is
    listed. *)
Theorem no_zone_is_refused clientOptions newRecords w w1 w2 :
  tokens_verify (new_Cloudflare clientOptions) w = (Resolved "active", w1) ->
  zones_list (new_Cloudflare clientOptions) w1 = (Resolved [], w2) ->
  update new_Cloudflare clientOptions newRecords w
  = (Throw (HttpError 400 no_zones_message), w2,
     [TokensVerify (Resolved "active"); ZonesList (Resolved [])]).
Proof.
  intros V Z. unfold update, bind, await. rewrite V. simpl. now rewrite Z.
Qed.

Lemma loop_listings (cloudflare : Cloudflare World) l w outcome w' log :
  loop_run cloudflare l w outcome w' log ->
  exists todo,
    map pair_key l = listings log ++ todo /\ (outcome = Return tt -> todo = []).
Proof.
  unfold listings. intros H.
  induction H as [w | newRecord zone rest w w1 log1 o w2 log2 Hb Hl [todo [IH1 IH2]]
                    | newRecord zone rest w e w1 log1 Hb].
  - now exists [].
  - exists todo. split; [|exact IH2].
    rewrite flat_map_app, <- app_assoc, <- IH1. now inversion Hb.
  - exists (map pair_key rest). split; [|discriminate]. now inversion Hb.
Qed.

(** X6: the listings of a request are asked record by record and, for
    each record, zone by zone, in the order of the two loops: what was
    listed is the beginning of that sequence, and all of it when
    [update] returns. *)
Theorem listings_follow_the_loops clientOptions newRecords w outcome w' zones calls :
  update new_Cloudflare clientOptions newRecords w
  = (outcome, w',
     TokensVerify (Resolved "active") :: ZonesList (Resolved zones) :: calls) ->
  exists todo,
    map pair_key (pairs newRecords zones) = listings calls ++ todo
    /\ (forall response, outcome = Return response -> todo = []).
Proof.
  intros U. apply update_sound in U.
  inversion U; subst.
  - exists []. split; [|now intros].
    now rewrite pairs_no_zone.
  - match goal with L : loop_run _ _ _ _ _ _ |- _ =>
      destruct (loop_listings _ _ _ _ _ _ L) as [todo [E T]] end.
    exists todo. split; [exact E | intros _ _; now apply T].
  - match goal with L : loop_run _ _ _ _ _ _ |- _ =>
      destruct (loop_listings _ _ _ _ _ _ L) as [todo [E T]] end.
    exists todo. split; [exact E | discriminate].
Qed.

End Further.

(** X7: a request with no [hostname] parameter: 422, once the address
    is resolved. *)
Theorem hostname_is_required (request : Request) (ip : string) :
  resolveIP request = Return ip ->
  URLSearchParams.get "hostname" (searchParams request) = None ->
  constructDNSRecords request = Throw (HttpError 422 hostname_required).
Proof.
  intros R H. unfold constructDNSRecords. now rewrite R, H.
Qed.

Lemma missing_authorization_is_401_witness :
  fetch Memory.client {| headers := []; searchParams := [] |} account
  = ({| body := "API token missing."; status := 401 |}, account, []).
Proof.
  apply (missing_authorization_is_401 Memory.Account Memory.client). reflexivity.
Defined.

(** The payloads [dXNlcg==] and [dTox], Base64 of [user] and of [u], a
    colon and the byte 1. *)
Lemma invalid_credentials_are_refused_witness :
  fetch Memory.client
    {| headers := [("Authorization", "Basic dXNlcg==")]; searchParams := [] |} account
  = ({| body := "Invalid API key or token."; status := 401 |}, account, [])
  /\ fetch Memory.client
       {| headers := [("Authorization", "Basic dToB")]; searchParams := [] |} account
     = ({| body := "Invalid API key or token."; status := 401 |}, account, []).
Proof.
  split.
  - apply (invalid_credentials_are_refused Memory.Account Memory.client _ account
             "Basic dXNlcg==" "user");
      [reflexivity | reflexivity | vm_compute; reflexivity | now left].
  - apply (invalid_credentials_are_refused Memory.Account Memory.client _ account
             "Basic dToB" (String "u" (String ":" (String (ascii_of_nat 1) ""))));
      [reflexivity | reflexivity | vm_compute; reflexivity | now right].
Defined.

Lemma inactive_token_is_refused_witness :
  update Memory.client credentials [record_of "198.51.100.9" "home.example.com"]
    expired_account
  = (Throw (HttpError 401 "This API Token is expired"), expired_account,
     [TokensVerify (Resolved "expired")]).
Proof.
  apply (inactive_token_is_refused Memory.Account Memory.client credentials
           [record_of "198.51.100.9" "home.example.com"] expired_account
           "expired" expired_account);
    [reflexivity | discriminate].
Defined.

Lemma no_zone_is_refused_witness :
  update Memory.client credentials [record_of "198.51.100.9" "home.example.com"]
    empty_account
  = (Throw (HttpError 400 no_zones_message), empty_account,
     [TokensVerify (Resolved "active"); ZonesList (Resolved [])]).
Proof.
  apply (no_zone_is_refused Memory.Account Memory.client credentials
           [record_of "198.51.100.9" "home.example.com"] empty_account
           empty_account empty_account); reflexivity.
Defined.

Lemma listings_follow_the_loops_witness :
  exists todo,
    map pair_key
      (pairs (map (record_of "198.51.100.9")
                (JS.split "," "none.example.com,home.example.com")) [zone])
    = listings [listed "none.example.com" [];
                listed "home.example.com" [home]; updated "home.example.com"]
      ++ todo
    /\ (forall response, Return ok_response = Return response -> todo = []).
Proof.
  apply (listings_follow_the_loops Memory.Account Memory.client credentials
           (map (record_of "198.51.100.9")
              (JS.split "," "none.example.com,home.example.com"))
           account (Return ok_response) (account_after "home.example.com") [zone]
           [listed "none.example.com" [];
            listed "home.example.com" [home]; updated "home.example.com"]).
  vm_compute. reflexivity.
Defined.

Lemma hostname_is_required_witness :
  constructDNSRecords (request [("ip", "198.51.100.9")])
  = Throw (HttpError 422 hostname_required).
Proof.
  apply (hostname_is_required (request [("ip", "198.51.100.9")]) "198.51.100.9");
    reflexivity.
Defined.

(** ** What every request gets: outcomes, statuses and calls *)

Lemma decoder_throws request e :
  constructClientOptions request = Throw e ->
  e = OtherError \/ exists message, e = HttpError 401 message.
Proof.
  unfold constructClientOptions.
  destruct (Headers.get "Authorization" (headers request)) as [authorization|].
  - destruct (JS.falsy authorization).
    + intros H. inversion H. right. eauto.
    + destruct (Base64.atob _) as [decoded|].
      * destruct (JS.indexOf ":" decoded) as [index|];
          [destruct (JS.test_control decoded)|];
          intros H; inversion H; right; eauto.
      * intros H. inversion H. now left.
  - intros H. inversion H. right. eauto.
Qed.

Lemma parser_throws request e :
  constructDNSRecords request = Throw e ->
  exists message, e = HttpError 422 message \/ e = HttpError 500 message.
Proof.
  unfold constructDNSRecords, resolveIP.
  destruct (JS.or_else _ _) as [ip|].
  - destruct (String.eqb ip "auto").
    + destruct (Headers.get "CF-Connecting-IP" (headers request)) as [client|].
      * destruct (URLSearchParams.get "hostname" (searchParams request));
          intros H; inversion H. eauto.
      * intros H. inversion H. eauto.
    + destruct (URLSearchParams.get "hostname" (searchParams request));
        intros H; inversion H. eauto.
  - intros H. inversion H. eauto.
Qed.

Section Outcomes.

Variable World : Type.
Variable cloudflare : Cloudflare World.

Lemma loop_throws l w e w' log :
  loop_run cloudflare l w (Throw e) w' log ->
  e = OtherError \/ e = HttpError 400 conflict_message.
Proof.
  intros H. remember (Throw e) as thrown eqn:T.
  induction H as [w | newRecord zone rest w w1 log1 o w2 log2 Hb Hl IH
                    | newRecord zone rest w e' w1 log1 Hb].
  - discriminate.
  - now apply IH.
  - inversion T; subst. inversion Hb; auto.
Qed.

Lemma update_outcomes newRecords w outcome w' log :
  update_run cloudflare newRecords w outcome w' log ->
  outcome = Return ok_response \/ outcome = Throw OtherError
  \/ exists message,
       outcome = Throw (HttpError 401 message) \/ outcome = Throw (HttpError 400 message).
Proof.
  intros H. inversion H; subst; auto.
  - right. right. eauto.
  - right. right. eauto.
  - match goal with L : loop_run _ _ _ (Throw _) _ _ |- _ =>
      destruct (loop_throws _ _ _ _ _ L) as [-> | ->] end; auto.
    right. right. eauto.
Qed.

(** A loop that returned: every call was answered, no listing found
    more than one record. *)
Lemma loop_returned_clean l w w' log :
  loop_run cloudflare l w (Return tt) w' log -> clean log.
Proof.
  unfold clean. intros H. remember (Return tt) as done eqn:D.
  induction H as [w | newRecord zone rest w w1 log1 o w2 log2 Hb Hl IH
                    | newRecord zone rest w e' w1 log1 Hb].
  - constructor.
  - apply Forall_app. split; [|now apply IH].
    inversion Hb; subst; repeat constructor.
  - discriminate.
Qed.

(** A call that was rejected is the last call of the loop. *)
Lemma loop_rejection l w outcome w' log before e after :
  loop_run cloudflare l w outcome w' log ->
  log = before ++ e :: after ->
  answered e = false ->
  after = [] /\ outcome = Throw OtherError.
Proof.
  intros H. revert before after.
  induction H as [w | newRecord zone rest w w1 log1 o w2 log2 Hb Hl IH
                    | newRecord zone rest w e' w1 log1 Hb]; intros before after E R.
  - now destruct before.
  - apply log_split in E. destruct E as [[after1 [E ->]]|[before2 [-> E]]].
    + revert E. inversion Hb; subst; intros E; log_positions E; discriminate.
    + now apply (IH _ _ E).
  - revert E. inversion Hb; subst; intros E; log_positions E;
      try discriminate; now split.
Qed.

Lemma update_rejection newRecords w outcome w' log before e after :
  update_run cloudflare newRecords w outcome w' log ->
  log = before ++ e :: after ->
  answered e = false ->
  after = [] /\ outcome = Throw OtherError.
Proof.
  intros H E R. revert E.
  inversion H; subst; intros E;
    try (log_positions E; try discriminate; now split);
    destruct before as [|b0 [|b1 before0]]; simpl in E; inversion E; subst;
    try discriminate;
    match goal with
    | L : loop_run _ _ _ _ _ (_ ++ _ :: _) |- _ =>
        destruct (loop_rejection _ _ _ _ _ _ _ _ L eq_refl R) as [-> O]
    end; [discriminate | now inversion O].
Qed.

(** The calls of the loop: at most two for a pair, and no more updates
    than listings. *)
Lemma loop_calls l w outcome w' log :
  loop_run cloudflare l w outcome w' log ->
  length (listings log) <= length l
  /\ length (filter is_update log) <= length (listings log)
  /\ length log = length (listings log) + length (filter is_update log).
Proof.
  unfold listings. intros H.
  induction H as [w | newRecord zone rest w w1 log1 o w2 log2 Hb Hl [IH1 [IH2 IH3]]
                    | newRecord zone rest w e' w1 log1 Hb].
  - simpl. lia.
  - rewrite flat_map_app, filter_app, !length_app.
    inversion Hb; subst; simpl in *; lia.
  - inversion Hb; subst; simpl; lia.
Qed.

End Outcomes.

Lemma length_pairs newRecords zones :
  length (pairs newRecords zones) = length newRecords * length zones.
Proof.
  unfold pairs. induction newRecords as [|r rs IH]; simpl; [reflexivity|].
  now rewrite length_app, length_map, IH.
Qed.

Lemma length_split (s : string) : length (JS.split "," s) = S (commas s).
Proof.
  induction s as [|a s IH]; simpl; [reflexivity|].
  destruct (Ascii.eqb a ","); simpl.
  - now rewrite IH.
  - destruct (JS.split "," s); simpl in *; lia.
Qed.

Section Requests.

Variable World : Type.
Variable new_Cloudflare : ClientOptions -> Cloudflare World.

(** The three ways of a request: the decoder threw, the parser threw,
    or [update] ran. *)
Lemma fetch_outcomes request w response w' log :
  fetch new_Cloudflare request w = (response, w', log) ->
  (exists e,
     constructClientOptions request = Throw e
     /\ response = respond (Throw e) /\ log = [] /\ w' = w)
  \/ (exists clientOptions e,
        constructClientOptions request = Return clientOptions
        /\ constructDNSRecords request = Throw e
        /\ response = respond (Throw e) /\ log = [] /\ w' = w)
  \/ (exists clientOptions records outcome,
        constructClientOptions request = Return clientOptions
        /\ constructDNSRecords request = Return records
        /\ update_run (new_Cloudflare clientOptions) records w outcome w' log
        /\ response = respond outcome).
Proof.
  unfold fetch, bind, lift.
  destruct (constructClientOptions request) as [clientOptions|e1].
  - destruct (constructDNSRecords request) as [records|e2].
    + destruct (update new_Cloudflare clientOptions records w)
        as [[outcome w1] log1] eqn:U.
      simpl. intros H. inversion H. subst. right. right.
      exists clientOptions, records, outcome. repeat split.
      now apply update_sound.
    + simpl. intros H. inversion H. subst. right. left.
      exists clientOptions, e2. now repeat split.
  - simpl. intros H. inversion H. subst. left. exists e1. now repeat split.
Qed.

(** X8: whatever the request, the client and its replies, the status of
    the response is 200, 400, 401, 422 or 500. *)
Theorem fetch_answers_a_known_status request w :
  In (status (fst (fst (fetch new_Cloudflare request w)))) statuses.
Proof.
  destruct (fetch new_Cloudflare request w) as [[response w'] log] eqn:F.
  unfold statuses. simpl fst.
  destruct (fetch_outcomes _ _ _ _ _ F)
    as [[e [C [-> _]]] | [[opts [e [_ [D [-> _]]]]] | [opts [records [o [_ [_ [U ->]]]]]]]].
  - destruct (decoder_throws _ _ C) as [-> | [m ->]]; simpl; auto 6.
  - destruct (parser_throws _ _ D) as [m [-> | ->]]; simpl; auto 6.
  - destruct (update_outcomes _ _ _ _ _ _ _ U) as [-> | [-> | [m [-> | ->]]]];
      simpl; auto 6.
Qed.

(** X9: a response with status 200 is the response OK of a request that
    went all the way: the credentials and the parameters were read, the
    token was active, some zone was listed, every record was listed in
    every zone, in the order of the loops, every call was answered and
    no listing found more than one record. *)
Theorem success_means_every_pair_was_listed request w response w' log :
  fetch new_Cloudflare request w = (response, w', log) ->
  status response = 200 ->
  response = ok_response
  /\ exists clientOptions records zones calls,
       constructClientOptions request = Return clientOptions
       /\ constructDNSRecords request = Return records
       /\ records <> [] /\ zones <> []
       /\ log = TokensVerify (Resolved "active") :: ZonesList (Resolved zones) :: calls
       /\ listings calls = map pair_key (pairs records zones)
       /\ clean log.
Proof.
  intros F S.
  destruct (fetch_outcomes _ _ _ _ _ F)
    as [[e [C [-> _]]] | [[opts [e [_ [D [-> _]]]]] | [opts [records [o [C [D [U ->]]]]]]]].
  - destruct (decoder_throws _ _ C) as [-> | [m ->]]; discriminate.
  - destruct (parser_throws _ _ D) as [m [-> | ->]]; discriminate.
  - inversion U; subst; simpl in S; try discriminate.
    + split; [reflexivity|].
      match goal with
      | Z : ?zones <> [], L : loop_run _ (pairs _ ?zones) _ _ _ ?calls |- _ =>
          exists opts, records, zones, calls;
          destruct (loop_listings _ _ _ _ _ _ _ L) as [todo [E T]];
          pose proof (loop_returned_clean _ _ _ _ _ _ L) as K
      end.
      repeat split; try assumption.
      * destruct (constructDNSRecords_returned _ _ D) as [ip [hostnames [_ [_ ->]]]].
        pose proof (split_not_nil "," hostnames) as N.
        destruct (JS.split "," hostnames); [contradiction | discriminate].
      * rewrite E, (T eq_refl). now rewrite app_nil_r.
      * unfold clean in *. repeat constructor. exact K.
    + match goal with L : loop_run _ _ _ (Throw _) _ _ |- _ =>
        destruct (loop_throws _ _ _ _ _ _ _ L) as [-> | ->] end; discriminate.
Qed.

(** X10: a response with status 422 comes from the parser alone: the
    credentials were decoded, and the client was not called. *)
Theorem invalid_input_makes_no_call request w response w' log :
  fetch new_Cloudflare request w = (response, w', log) ->
  status response = 422 ->
  log = [] /\ w' = w
  /\ (exists clientOptions, constructClientOptions request = Return clientOptions)
  /\ exists message, constructDNSRecords request = Throw (HttpError 422 message).
Proof.
  intros F S.
  destruct (fetch_outcomes _ _ _ _ _ F)
    as [[e [C [-> _]]] | [[opts [e [C [D [-> [-> ->]]]]]]
                          | [opts [records [o [_ [_ [U ->]]]]]]]].
  - destruct (decoder_throws _ _ C) as [-> | [m ->]]; discriminate.
  - destruct (parser_throws _ _ D) as [m [-> | ->]]; try discriminate.
    repeat split; eauto.
  - destruct (update_outcomes _ _ _ _ _ _ _ U) as [-> | [-> | [m [-> | ->]]]];
      discriminate.
Qed.

(** X11: no record is listed or updated unless the credentials were
    decoded, the token was verified as active and the zones were listed,
    not empty, in this order and before any call on records. *)
Theorem record_calls_need_an_active_token request w response w' log before e after :
  fetch new_Cloudflare request w = (response, w', log) ->
  log = before ++ e :: after ->
  is_record_call e = true ->
  exists clientOptions zones before0,
    constructClientOptions request = Return clientOptions
    /\ zones <> []
    /\ before = TokensVerify (Resolved "active") :: ZonesList (Resolved zones) :: before0
    /\ Forall (fun call => is_record_call call = true) (before0 ++ e :: after).
Proof.
  intros F E R.
  destruct (fetch_loop _ _ _ _ _ _ _ _ _ _ F E R)
    as [opts [ip [hostnames [zones [w2 [o [before0 [C [_ [_ [Z [B [L _]]]]]]]]]]]]].
  exists opts, zones, before0. repeat split; try assumption.
  clear - L. remember (before0 ++ e :: after) as calls eqn:Q. clear Q.
  induction L as [w | newRecord zone rest w w1 log1 o' w3 log2 Hb Hl IH
                    | newRecord zone rest w e' w1 log1 Hb].
  - constructor.
  - apply Forall_app. split; [|exact IH]. inversion Hb; subst; repeat constructor.
  - inversion Hb; subst; repeat constructor.
Qed.

(** X12: a call of the client that is rejected is the last call of the
    request, and the response is 500 with the body Internal Server
    Error: nothing is tried again and nothing of the rejection is told. *)
Theorem rejection_aborts_request request w response w' log before e after :
  fetch new_Cloudflare request w = (response, w', log) ->
  log = before ++ e :: after ->
  answered e = false ->
  after = [] /\ response = {| body := "Internal Server Error"; status := 500 |}.
Proof.
  intros F E R.
  destruct (fetch_outcomes _ _ _ _ _ F)
    as [[e1 [_ [_ [-> _]]]] | [[opts [e2 [_ [_ [_ [-> _]]]]]]
                              | [opts [records [o [_ [_ [U ->]]]]]]]].
  - now destruct before.
  - now destruct before.
  - destruct (update_rejection _ _ _ _ _ _ _ _ _ _ U E R) as [-> ->]. now split.
Qed.

(** X13: the calls of [update] are bounded by its input: after the two
    calls for the token and the zones, there are at most as many
    listings as pairs of a record and a zone, no more updates than
    listings, and no other call. *)
Theorem calls_are_bounded clientOptions newRecords w outcome w' log :
  update new_Cloudflare clientOptions newRecords w = (outcome, w', log) ->
  length log <= 2
  \/ exists zones calls,
       log = TokensVerify (Resolved "active") :: ZonesList (Resolved zones) :: calls
       /\ length (listings calls) <= length newRecords * length zones
       /\ length (filter is_update calls) <= length (listings calls)
       /\ length calls = length (listings calls) + length (filter is_update calls).
Proof.
  intros U. apply update_sound in U.
  inversion U; subst; try (left; simpl; lia); right;
    match goal with
    | L : loop_run _ (pairs _ ?zones) _ _ _ ?calls |- _ =>
        exists zones, calls;
        destruct (loop_calls _ _ _ _ _ _ _ L) as [B1 [B2 B3]];
        rewrite length_pairs in B1
    end; auto.
Qed.

(** X14: every update call of a request writes what the request asked
    for: its content is the resolved address, its type is [A] when the
    address has a dot and [AAAA] otherwise, its name is one of the pieces
    of the [hostname] parameter and its zone is one of the zones
    listed. *)
Theorem updates_carry_the_request
    request w response w' log before record_id params reply after :
  fetch new_Cloudflare request w = (response, w', log) ->
  log = before ++ RecordsUpdate record_id params reply :: after ->
  exists ip hostnames zones zone,
    resolveIP request = Return ip
    /\ URLSearchParams.get "hostname" (searchParams request) = Some hostnames
    /\ In (ZonesList (Resolved zones)) before /\ In zone zones
    /\ u_content params = ip
    /\ u_type params = (if JS.includes "." ip then A else AAAA)
    /\ In (u_name params) (JS.split "," hostnames)
    /\ u_zone_id params = Zone.id zone.
Proof.
  intros F E.
  destruct (fetch_loop _ _ _ _ _ _ _ _ _ _ F E eq_refl)
    as [opts [ip [hostnames [zones [w2 [o [before0 [_ [R [H [_ [-> [L _]]]]]]]]]]]]].
  destruct (loop_update _ _ _ _ _ _ _ _ _ _ _ _ L eq_refl)
    as [newRecord [zone [current [before1 [Hin [_ [_ ->]]]]]]].
  apply in_pairs in Hin. destruct Hin as [Hr Hz].
  apply in_map_iff in Hr. destruct Hr as [hostname [<- Hh]].
  exists ip, hostnames, zones, zone.
  repeat split; try assumption.
  right. now left.
Qed.

End Requests.

(** ** What the decoder and the parser return *)

Lemma indexOf_cut (c : ascii) (s : string) (i : nat) :
  JS.indexOf c s = Some i ->
  s = (JS.substring 0 i s ++ String c (JS.substring_from (i + 1) s))%string
  /\ JS.indexOf c (JS.substring 0 i s) = None.
Proof.
  unfold JS.substring, JS.substring_from. rewrite Nat.sub_0_r.
  revert i. induction s as [|a s IH]; intros i; simpl; [discriminate|].
  destruct (Ascii.eqb_spec a c) as [->|N].
  - intros H. inversion H. subst. simpl.
    now rewrite Nat.sub_0_r, substring_whole.
  - destruct (JS.indexOf c s) as [j|]; [|discriminate].
    intros H. inversion H. subst.
    destruct (IH j eq_refl) as [E1 E2]. simpl.
    split.
    + f_equal. exact E1.
    + apply Ascii.eqb_neq in N. now rewrite N, E2.
Qed.

Lemma test_control_append (a b : string) :
  JS.test_control (a ++ b) = JS.test_control a || JS.test_control b.
Proof.
  induction a as [|x a IH]; simpl; [reflexivity|].
  now rewrite IH, orb_assoc.
Qed.

(** X15: the credentials the decoder returns spell the payload of the
    header: the decoded payload is the email, a colon and the token; the
    email has no colon, and neither has a control character. *)
Theorem returned_credentials_spell_the_payload request clientOptions :
  constructClientOptions request = Return clientOptions ->
  exists authorization decoded,
    Headers.get "Authorization" (headers request) = Some authorization
    /\ Base64.atob (JS.to_string (nth_error (JS.split " " authorization) 1))
       = Some decoded
    /\ decoded = (apiEmail clientOptions ++ ":" ++ apiToken clientOptions)%string
    /\ JS.indexOf ":" (apiEmail clientOptions) = None
    /\ JS.test_control (apiEmail clientOptions) = false
    /\ JS.test_control (apiToken clientOptions) = false.
Proof.
  unfold constructClientOptions.
  destruct (Headers.get "Authorization" (headers request)) as [authorization|];
    [|discriminate].
  destruct (JS.falsy authorization); [discriminate|].
  destruct (Base64.atob _) as [decoded|] eqn:D; [|discriminate].
  destruct (JS.indexOf ":" decoded) as [index|] eqn:I; [|discriminate].
  destruct (JS.test_control decoded) eqn:T; [discriminate|].
  intros H. inversion H. subst. clear H. simpl.
  destruct (indexOf_cut _ _ _ I) as [E N].
  exists authorization, decoded. repeat split; try assumption.
  - rewrite E in T. rewrite test_control_append in T.
    now apply orb_false_iff in T.
  - rewrite E in T. rewrite test_control_append in T.
    apply orb_false_iff in T. destruct T as [_ T]. exact T.
Qed.

(** X16: the parser never returns an empty list: it returns one record
    more than the [hostname] parameter has commas, so one record with
    an empty name for an empty parameter; and no record it returns has
    an id, a [proxied] flag or a comment. *)
Theorem parser_returns_a_record_per_piece request records :
  constructDNSRecords request = Return records ->
  exists hostnames,
    URLSearchParams.get "hostname" (searchParams request) = Some hostnames
    /\ length records = S (commas hostnames)
    /\ (hostnames = "" -> map name records = [""])
    /\ Forall (fun record =>
                 id record = None /\ proxied record = None /\ comment record = None)
         records.
Proof.
  intros H.
  destruct (constructDNSRecords_returned _ _ H) as [ip [hostnames [_ [G ->]]]].
  exists hostnames. repeat split.
  - exact G.
  - now rewrite length_map, length_split.
  - now intros ->.
  - apply Forall_map, Forall_forall. now intros hostname _.
Qed.

(** ** The further properties on the sample account *)

Example fetch_read_only :
  fetch read_only_client (request_for "home.example.com") account
  = ({| body := "Internal Server Error"; status := 500 |}, account,
     [verified; zones_listed; listed "home.example.com" [home];
      RecordsUpdate "r1" (sent "home.example.com") Rejected]).
Proof. vm_compute. reflexivity. Qed.

Example fetch_without_ip :
  fetch Memory.client (request [("hostname", "home.example.com")]) account
  = ({| body := ip_required; status := 422 |}, account, []).
Proof. vm_compute. reflexivity. Qed.

Lemma success_means_every_pair_was_listed_witness :
  ok_response = ok_response
  /\ exists clientOptions records zones calls,
       constructClientOptions (request_for "home.example.com") = Return clientOptions
       /\ constructDNSRecords (request_for "home.example.com") = Return records
       /\ records <> [] /\ zones <> []
       /\ [verified; zones_listed; listed "home.example.com" [home];
           updated "home.example.com"]
          = TokensVerify (Resolved "active") :: ZonesList (Resolved zones) :: calls
       /\ listings calls = map pair_key (pairs records zones)
       /\ clean [verified; zones_listed; listed "home.example.com" [home];
                 updated "home.example.com"].
Proof.
  apply (success_means_every_pair_was_listed Memory.Account Memory.client
           (request_for "home.example.com") account ok_response
           (account_after "home.example.com")
           [verified; zones_listed; listed "home.example.com" [home];
            updated "home.example.com"]).
  - exact fetch_home.
  - reflexivity.
Defined.

Lemma invalid_input_makes_no_call_witness :
  @nil Event = [] /\ account = account
  /\ (exists clientOptions,
        constructClientOptions (request [("hostname", "home.example.com")])
        = Return clientOptions)
  /\ exists message,
       constructDNSRecords (request [("hostname", "home.example.com")])
       = Throw (HttpError 422 message).
Proof.
  apply (invalid_input_makes_no_call Memory.Account Memory.client
           (request [("hostname", "home.example.com")]) account
           {| body := ip_required; status := 422 |} account []).
  - exact fetch_without_ip.
  - reflexivity.
Defined.

Lemma record_calls_need_an_active_token_witness :
  exists clientOptions zones before0,
    constructClientOptions (request_for "home.example.com") = Return clientOptions
    /\ zones <> []
    /\ [verified; zones_listed]
       = TokensVerify (Resolved "active") :: ZonesList (Resolved zones) :: before0
    /\ Forall (fun call => is_record_call call = true)
         (before0 ++ listed "home.example.com" [home] :: [updated "home.example.com"]).
Proof.
  apply (record_calls_need_an_active_token Memory.Account Memory.client
           (request_for "home.example.com") account ok_response
           (account_after "home.example.com")
           [verified; zones_listed; listed "home.example.com" [home];
            updated "home.example.com"]).
  - exact fetch_home.
  - reflexivity.
  - reflexivity.
Defined.

Lemma rejection_aborts_request_witness :
  @nil Event = []
  /\ {| body := "Internal Server Error"; status := 500 |}
     = {| body := "Internal Server Error"; status := 500 |}.
Proof.
  apply (rejection_aborts_request Memory.Account read_only_client
           (request_for "home.example.com") account
           {| body := "Internal Server Error"; status := 500 |} account
           [verified; zones_listed; listed "home.example.com" [home];
            RecordsUpdate "r1" (sent "home.example.com") Rejected]
           [verified; zones_listed; listed "home.example.com" [home]]
           (RecordsUpdate "r1" (sent "home.example.com") Rejected) []).
  - exact fetch_read_only.
  - reflexivity.
  - reflexivity.
Defined.

Lemma calls_are_bounded_witness :
  length [verified; zones_listed; listed "none.example.com" [];
          listed "home.example.com" [home]; updated "home.example.com"] <= 2
  \/ exists zones calls,
       [verified; zones_listed; listed "none.example.com" [];
        listed "home.example.com" [home]; updated "home.example.com"]
       = TokensVerify (Resolved "active") :: ZonesList (Resolved zones) :: calls
       /\ length (listings calls)
          <= length (map (record_of "198.51.100.9")
                       (JS.split "," "none.example.com,home.example.com"))
             * length zones
       /\ length (filter is_update calls) <= length (listings calls)
       /\ length calls = length (listings calls) + length (filter is_update calls).
Proof.
  apply (calls_are_bounded Memory.Account Memory.client credentials
           (map (record_of "198.51.100.9")
              (JS.split "," "none.example.com,home.example.com"))
           account (Return ok_response) (account_after "home.example.com")).
  vm_compute. reflexivity.
Defined.

Lemma updates_carry_the_request_witness :
  exists ip hostnames zones zone,
    resolveIP (request_for "home.example.com") = Return ip
    /\ URLSearchParams.get "hostname" (searchParams (request_for "home.example.com"))
       = Some hostnames
    /\ In (ZonesList (Resolved zones))
         [verified; zones_listed; listed "home.example.com" [home]]
    /\ In zone zones
    /\ u_content (sent "home.example.com") = ip
    /\ u_type (sent "home.example.com") = (if JS.includes "." ip then A else AAAA)
    /\ In (u_name (sent "home.example.com")) (JS.split "," hostnames)
    /\ u_zone_id (sent "home.example.com") = Zone.id zone.
Proof.
  apply (updates_carry_the_request Memory.Account Memory.client
           (request_for "home.example.com") account ok_response
           (account_after "home.example.com")
           [verified; zones_listed; listed "home.example.com" [home];
            updated "home.example.com"]
           [verified; zones_listed; listed "home.example.com" [home]]
           "r1" (sent "home.example.com") (Resolved tt) []).
  - exact fetch_home.
  - reflexivity.
Defined.

Lemma returned_credentials_spell_the_payload_witness :
  exists authorization decoded,
    Headers.get "Authorization" (headers (request_for "home.example.com"))
    = Some authorization
    /\ Base64.atob (JS.to_string (nth_error (JS.split " " authorization) 1))
       = Some decoded
    /\ decoded = (apiEmail credentials ++ ":" ++ apiToken credentials)%string
    /\ JS.indexOf ":" (apiEmail credentials) = None
    /\ JS.test_control (apiEmail credentials) = false
    /\ JS.test_control (apiToken credentials) = false.
Proof.
  apply (returned_credentials_spell_the_payload (request_for "home.example.com")
           credentials).
  vm_compute. reflexivity.
Defined.

Lemma parser_returns_a_record_per_piece_witness :
  exists hostnames,
    URLSearchParams.get "hostname"
      (searchParams (request [("ip", "198.51.100.9"); ("hostname", "")]))
    = Some hostnames
    /\ length [record_of "198.51.100.9" ""] = S (commas hostnames)
    /\ (hostnames = "" -> map name [record_of "198.51.100.9" ""] = [""])
    /\ Forall (fun record =>
                 id record = None /\ proxied record = None /\ comment record = None)
         [record_of "198.51.100.9" ""].
Proof.
  apply (parser_returns_a_record_per_piece
           (request [("ip", "198.51.100.9"); ("hostname", "")])
           [record_of "198.51.100.9" ""]).
  reflexivity.
Defined.

(** ** What each error status tells *)

Section Statuses.

Variable World : Type.
Variable new_Cloudflare : ClientOptions -> Cloudflare World.

(** A loop that threw: its last call was rejected, or was a listing that
    found more than one record. *)
Lemma loop_thrown_last (cloudflare : Cloudflare World) l w e w' log :
  loop_run cloudflare l w (Throw e) w' log ->
  exists before last,
    log = before ++ [last]
    /\ ((e = OtherError /\ answered last = false)
        \/ (e = HttpError 400 conflict_message /\ is_conflict last = true)).
Proof.
  intros H. remember (Throw e) as thrown eqn:T.
  induction H as [w | newRecord zone rest w w1 log1 o w2 log2 Hb Hl IH
                    | newRecord zone rest w e' w1 log1 Hb].
  - discriminate.
  - destruct (IH T) as [before [last [-> K]]].
    exists (log1 ++ before), last. split; [now rewrite app_assoc | exact K].
  - inversion T; subst. inversion Hb; subst.
    + eexists [], _. split; [reflexivity|]. now left.
    + eexists [], _. split; [reflexivity|]. right. split; [reflexivity|].
      simpl. now apply Nat.ltb_lt.
    + eexists [_], _. split; [reflexivity|]. now left.
Qed.

(** X17: a response with status 401 was given before any zone or record
    was read: either the decoder threw it and the client was not called,
    or the only call was the verification of the token, which gave a
    status other than active, named in the body. *)
Theorem unauthenticated_reads_no_record request w response w' log :
  fetch new_Cloudflare request w = (response, w', log) ->
  status response = 401 ->
  (log = [] /\ w' = w
   /\ constructClientOptions request = Throw (HttpError 401 (body response)))
  \/ exists tokenStatus,
       tokenStatus <> "active"
       /\ log = [TokensVerify (Resolved tokenStatus)]
       /\ body response = ("This API Token is " ++ tokenStatus)%string.
Proof.
  intros F S.
  destruct (fetch_outcomes _ _ _ _ _ _ _ F)
    as [[e [C [-> [-> ->]]]] | [[opts [e [_ [D [-> _]]]]]
                              | [opts [records [o [_ [_ [U ->]]]]]]]].
  - left. destruct (decoder_throws _ _ C) as [-> | [m ->]]; [discriminate|].
    now repeat split.
  - destruct (parser_throws _ _ D) as [m [-> | ->]]; discriminate.
  - right. inversion U; subst; simpl in S; try discriminate.
    + exists tokenStatus. now repeat split.
    + match goal with L : loop_run _ _ _ (Throw _) _ _ |- _ =>
        destruct (loop_throws _ _ _ _ _ _ _ L) as [-> | ->] end; discriminate.
Qed.

(** X18: a response with status 400 tells one of two things: the token
    saw no zone, and no record was listed; or the last call of the
    request was a listing that found more than one record. *)
Theorem bad_request_is_no_zone_or_conflict request w response w' log :
  fetch new_Cloudflare request w = (response, w', log) ->
  status response = 400 ->
  (log = [TokensVerify (Resolved "active"); ZonesList (Resolved [])]
   /\ body response = no_zones_message)
  \/ exists before zone_id name type records,
       log = before ++ [RecordsList zone_id name type (Resolved records)]
       /\ 1 < length records
       /\ body response = conflict_message.
Proof.
  intros F S.
  destruct (fetch_outcomes _ _ _ _ _ _ _ F)
    as [[e [C [-> _]]] | [[opts [e [_ [D [-> _]]]]]
                          | [opts [records [o [_ [_ [U ->]]]]]]]].
  - destruct (decoder_throws _ _ C) as [-> | [m ->]]; discriminate.
  - destruct (parser_throws _ _ D) as [m [-> | ->]]; discriminate.
  - inversion U; subst; simpl in S; try discriminate.
    + now left.
    + right.
      match goal with L : loop_run _ _ _ (Throw _) _ _ |- _ =>
        destruct (loop_thrown_last _ _ _ _ _ _ L)
          as [before [last [-> [[-> _] | [-> K]]]]] end; [discriminate|].
      destruct last as [| |zone_id name type [found|]|]; try discriminate.
      exists (TokensVerify (Resolved "active") :: ZonesList (Resolved zones) :: before),
        zone_id, name, type, found.
      repeat split. now apply Nat.ltb_lt.
Qed.

(** X19: a response with status 500 tells one of three things, and in
    the first two the client was not called: the payload of the header
    was not Base64; the address asked for was [auto] and could not be
    found; or the last call of the request was rejected. *)
Theorem server_error_has_three_causes request w response w' log :
  fetch new_Cloudflare request w = (response, w', log) ->
  status response = 500 ->
  (log = [] /\ w' = w /\ constructClientOptions request = Throw OtherError)
  \/ (log = [] /\ w' = w
      /\ JS.or_else (URLSearchParams.get "ip" (searchParams request))
                    (URLSearchParams.get "myip" (searchParams request)) = Some "auto"
      /\ Headers.get "CF-Connecting-IP" (headers request) = None)
  \/ exists before last,
       log = before ++ [last] /\ answered last = false
       /\ body response = "Internal Server Error".
Proof.
  intros F S.
  destruct (fetch_outcomes _ _ _ _ _ _ _ F)
    as [[e [C [-> [-> ->]]]] | [[opts [e [_ [D [-> [-> ->]]]]]]
                              | [opts [records [o [_ [_ [U ->]]]]]]]].
  - left. destruct (decoder_throws _ _ C) as [-> | [m ->]]; [|discriminate].
    now repeat split.
  - right. left. split; [reflexivity|]. split; [reflexivity|].
    revert D S. unfold constructDNSRecords, resolveIP.
    destruct (JS.or_else _ _) as [ip|]; [|intros D; inversion D; discriminate].
    destruct (String.eqb_spec ip "auto") as [->|N].
    + destruct (Headers.get "CF-Connecting-IP" (headers request)); [|now split].
      destruct (URLSearchParams.get "hostname" (searchParams request));
        intros D; inversion D; discriminate.
    + destruct (URLSearchParams.get "hostname" (searchParams request));
        intros D; inversion D; discriminate.
  - right. right. inversion U; subst; simpl in S; try discriminate.
    + now exists [], (TokensVerify Rejected).
    + now exists [TokensVerify (Resolved "active")], (ZonesList Rejected).
    + match goal with L : loop_run _ _ _ (Throw _) _ _ |- _ =>
        destruct (loop_thrown_last _ _ _ _ _ _ L)
          as [before [last [-> [[-> K] | [-> _]]]]] end; [|discriminate].
      exists (TokensVerify (Resolved "active") :: ZonesList (Resolved zones) :: before),
        last.
      now repeat split.
Qed.

End Statuses.

Example fetch_expired :
  fetch Memory.client (request_for "home.example.com") expired_account
  = ({| body := "This API Token is expired"; status := 401 |}, expired_account,
     [TokensVerify (Resolved "expired")]).
Proof. vm_compute. reflexivity. Qed.

Lemma unauthenticated_reads_no_record_witness :
  (  [TokensVerify (Resolved "expired")] = [] /\ expired_account = expired_account
     /\ constructClientOptions (request_for "home.example.com")
        = Throw (HttpError 401 "This API Token is expired"))
  \/ exists tokenStatus,
       tokenStatus <> "active"
       /\ [TokensVerify (Resolved "expired")] = [TokensVerify (Resolved tokenStatus)]
       /\ "This API Token is expired" = ("This API Token is " ++ tokenStatus)%string.
Proof.
  apply (unauthenticated_reads_no_record Memory.Account Memory.client
           (request_for "home.example.com") expired_account
           {| body := "This API Token is expired"; status := 401 |} expired_account
           [TokensVerify (Resolved "expired")]).
  - exact fetch_expired.
  - reflexivity.
Defined.

Lemma bad_request_is_no_zone_or_conflict_witness :
  (  [verified; zones_listed; listed "home.example.com" [home];
      updated "home.example.com"; listed "dup.example.com" [twin "r2"; twin "r3"]]
     = [TokensVerify (Resolved "active"); ZonesList (Resolved [])]
     /\ conflict_message = no_zones_message)
  \/ exists before zone_id name type records,
       [verified; zones_listed; listed "home.example.com" [home];
        updated "home.example.com"; listed "dup.example.com" [twin "r2"; twin "r3"]]
       = before ++ [RecordsList zone_id name type (Resolved records)]
       /\ 1 < length records
       /\ conflict_message = conflict_message.
Proof.
  apply (bad_request_is_no_zone_or_conflict Memory.Account Memory.client
           (request_for "home.example.com,dup.example.com,home.example.com") account
           {| body := conflict_message; status := 400 |}
           (account_after "home.example.com")).
  - exact fetch_conflict.
  - reflexivity.
Defined.

Lemma server_error_has_three_causes_witness :
  (  [verified; zones_listed; listed "home.example.com" [home];
      RecordsUpdate "r1" (sent "home.example.com") Rejected] = []
     /\ account = account
     /\ constructClientOptions (request_for "home.example.com") = Throw OtherError)
  \/ (  [verified; zones_listed; listed "home.example.com" [home];
         RecordsUpdate "r1" (sent "home.example.com") Rejected] = []
        /\ account = account
        /\ JS.or_else
             (URLSearchParams.get "ip" (searchParams (request_for "home.example.com")))
             (URLSearchParams.get "myip" (searchParams (request_for "home.example.com")))
           = Some "auto"
        /\ Headers.get "CF-Connecting-IP" (headers (request_for "home.example.com"))
           = None)
  \/ exists before last,
       [verified; zones_listed; listed "home.example.com" [home];
        RecordsUpdate "r1" (sent "home.example.com") Rejected]
       = before ++ [last]
       /\ answered last = false
       /\ "Internal Server Error" = "Internal Server Error".
Proof.
  apply (server_error_has_three_causes Memory.Account read_only_client
           (request_for "home.example.com") account
           {| body := "Internal Server Error"; status := 500 |} account).
  - exact fetch_read_only.
  - reflexivity.
Defined.
